(** * Grid search over [damping] and [mindist] of a spline gridder

    Shallow embedding of the notebook [model_selection.ipynb]: the baseline
    score (cell 4), the list of parameter combinations (cell 6), the scoring
    loop over one shared model (cell 8) and the selection by [np.argmax]
    (cell 10).

    External collaborators are kept abstract or follow their documentation:
    - [vd.Spline()] : the attributes of a freshly constructed model are a
      section variable;
    - [np.mean(vd.cross_val_score(spline, ...))] : a section variable mapping
      a model to a score or to the exception it raises;
    - [itertools.product] : the reference implementation of the Python
      documentation;
    - [np.argmax] : index of the first occurrence of the maximum, [ValueError]
      on an empty sequence.

    Two further views of the same cells serve single properties: cell 6 over
    any pools handed to [itertools.product] ([parameter_sets_of],
    [run_pools]), and the cells as actions on the state of a live kernel
    ([kernel], [notebook]), where the scoring library may carry state of its
    own. Both are tied to [parameter_sets] and [run] by lemmas.

    Scores are real numbers ("a real-valued score where higher is better"):
    a finite float is a rational, so scores are [Q] compared with [Qle_bool].
    NaN is outside this data model. *)

From Stdlib Require Import QArith.
From stdpp Require Import gmap strings list fin_maps.

Local Open Scope string_scope.
Local Open Scope list_scope.

(** ** Python values and exceptions *)

(** A candidate value: [None] or a float. *)
Inductive value : Type :=
  | VNone
  | VFloat (q : Q).

(** A raised exception: its class and its message. *)
Record exn : Type := Raise { exn_class : string; exn_msg : string }.

(** ** [itertools.product]

    <<
    result = [[]]
    for pool in pools:
        result = [x+[y] for x in result for y in pool]
    >> *)
Definition product_step {A : Type} (result : list (list A)) (pool : list A)
  : list (list A) :=
  x ← result; y ← pool; [x ++ [y]].

Definition itertools_product {A : Type} (pools : list (list A)) : list (list A) :=
  foldl product_step [[]] pools.

(** The spec's words for the order: nested loops, the first parameter in the
    outermost loop and the last one in the innermost. *)
Fixpoint nested_loops {A : Type} (pools : list (list A)) : list (list A) :=
  match pools with
  | [] => [[]]
  | pool :: rest => x ← pool; tl ← nested_loops rest; [x :: tl]
  end.

(** ** Cell 6: the parameter sets

    <<
    parameter_sets = [
        dict(damping=combo[0], mindist=combo[1])
        for combo in itertools.product(dampings, mindists)
    ]
    >> *)
Definition dict2 (d m : value) : gmap string value :=
  {[ "damping" := d; "mindist" := m ]}.

(** [combo[0]], [combo[1]] of a tuple; [itertools.product] of two pools only
    yields pairs, so the last branch is never taken
    (see [parameter_sets_nested]). *)
Definition dict_of_combo (combo : list value) : gmap string value :=
  match combo with
  | c0 :: c1 :: _ => dict2 c0 c1
  | _ => ∅
  end.

Definition parameter_sets (dampings mindists : list value)
  : list (gmap string value) :=
  dict_of_combo <$> itertools_product [dampings; mindists].

(** A float with an integral or decimal literal, [n / d]. *)
Definition flt (n : Z) (d : positive) : value := VFloat (n # d).

(** ** Raising computations *)

#[global] Instance exn_ret : MRet (sum exn) := λ A x, inr x.
#[global] Instance exn_bind : MBind (sum exn) := λ A B k m,
  match m with
  | inl e => inl e
  | inr x => k x
  end.

(** [l[i]] on a Python list, for [i >= 0]. *)
Definition py_index {A : Type} (l : list A) (i : nat) : exn + A :=
  match l !! i with
  | Some x => inr x
  | None => inl (Raise "IndexError" "list index out of range")
  end.

(** ** [np.argmax]

    The scan of numpy's argmax: the running maximum [mp] at index [max_ind] is
    replaced only by an element that is not [<= mp], so the first occurrence of
    the maximum wins. *)
Fixpoint argmax_scan (mp : Q) (max_ind i : nat) (ip : list Q) : nat :=
  match ip with
  | [] => max_ind
  | x :: ip' =>
      if Qle_bool x mp then argmax_scan mp max_ind (S i) ip'
      else argmax_scan x i (S i) ip'
  end.

Definition np_argmax (a : list Q) : exn + nat :=
  match a with
  | [] => inl (Raise "ValueError" "attempt to get argmax of an empty sequence")
  | x :: a' => inr (argmax_scan x 0 1 a')
  end.

(** ** The model object

    [vd.Spline] holds its parameters as attributes; [fit] stores the fitted
    forces and leaves the parameters alone. *)
Record Spline : Type := { attrs : gmap string value; fitted : bool }.

(** [spline.set_params] called with the dict [params] unpacked as keyword
    arguments: every key of [params] is assigned on the object, in place; the
    other attributes keep their values, and with no key at all the object is
    left as it is. The keys are taken to be parameters of the model, as
    [damping] and [mindist] are for [vd.Spline]. *)
Definition set_params (s : Spline) (params : gmap string value) : Spline :=
  {| attrs := params ∪ attrs s; fitted := fitted s |}.

Definition fit (s : Spline) : Spline :=
  {| attrs := attrs s; fitted := true |}.

(** What cell 10 prints. *)
Record Result : Type := {
  best_score : Q;
  score_default : Q;
  best_params : gmap string value
}.

(** Cell 10.
    <<
    best = np.argmax(scores)
    print("Best score:", scores[best])
    print("Score with defaults:", score_default)
    print("Best parameters:", parameter_sets[best])
    >> *)
Definition select (parameter_sets : list (gmap string value)) (scores : list Q)
    (score_default : Q) : exn + Result :=
  best ← np_argmax scores;
  s ← py_index scores best;
  p ← py_index parameter_sets best;
  mret {| best_score := s; score_default := score_default; best_params := p |}.

(** The variables of cell 8 while the loop runs, and the models handed to the
    scoring function so far ([calls], a ghost log). *)
Record loop_state : Type := {
  spline : Spline;
  scores : list Q;
  calls : list Spline
}.

(** What a run of the notebook leaves behind: the models handed to the scoring
    function, in order; the baseline model [spline_default]; the shared model
    [spline] once cell 8 has created it; the recorded scores; and the Result
    printed by cell 10 or the exception that ended the run. *)
Record run_out : Type := {
  out_calls : list Spline;
  out_spline_default : Spline;
  out_spline : option Spline;
  out_scores : list Q;
  out_result : exn + Result
}.

Section GridSearch.

(** The attributes of [vd.Spline()]. *)
Variable Spline_defaults : gmap string value.

(** [np.mean(vd.cross_val_score(model, proj_coordz, dataz.air_temperature_c))]
    on the fixed data set: a score, or the exception raised. *)
Variable cross_val_score_mean : Spline → exn + Q.

Definition new_Spline : Spline :=
  {| attrs := Spline_defaults; fitted := false |}.

(** Cell 8.
    <<
    for params in parameter_sets:
        spline.set_params( **params )
        score = np.mean(vd.cross_val_score(spline, ...))
        scores.append(score)
    >>
    The first component is the exception that ended the loop, if any. *)
Fixpoint sweep (parameter_sets : list (gmap string value)) (st : loop_state)
  : option exn * loop_state :=
  match parameter_sets with
  | [] => (None, st)
  | params :: rest =>
      let spline' := set_params (spline st) params in
      match cross_val_score_mean spline' with
      | inl e =>
          (Some e, {| spline := spline'; scores := scores st;
                      calls := calls st ++ [spline'] |})
      | inr score =>
          sweep rest {| spline := spline'; scores := scores st ++ [score];
                        calls := calls st ++ [spline'] |}
      end
  end.

(** The design note's alternative: one fresh configured model per
    Configuration instead of the shared one. *)
Fixpoint sweep_fresh (parameter_sets : list (gmap string value))
    (st : loop_state) : option exn * loop_state :=
  match parameter_sets with
  | [] => (None, st)
  | params :: rest =>
      let spline' := set_params new_Spline params in
      match cross_val_score_mean spline' with
      | inl e =>
          (Some e, {| spline := spline'; scores := scores st;
                      calls := calls st ++ [spline'] |})
      | inr score =>
          sweep_fresh rest {| spline := spline'; scores := scores st ++ [score];
                              calls := calls st ++ [spline'] |}
      end
  end.

(** Cells 4, 8 and 10 on the list [parameter_sets] that cell 6 has built; an
    exception ends the run.
    <<
    spline_default = vd.Spline()
    score_default = np.mean(vd.cross_val_score(spline_default, ...))
    spline_default.fit(...)
    ...
    spline = vd.Spline()
    scores = []
    >> *)
Definition run_with (parameter_sets : list (gmap string value)) : run_out :=
  let spline_default := new_Spline in
  match cross_val_score_mean spline_default with
  | inl e =>
      {| out_calls := [spline_default]; out_spline_default := spline_default;
         out_spline := None; out_scores := []; out_result := inl e |}
  | inr score_default =>
      let spline_default := fit spline_default in
      let '(raised, st) :=
        sweep parameter_sets
          {| spline := new_Spline; scores := [];
             calls := [new_Spline] |} in
      {| out_calls := calls st; out_spline_default := spline_default;
         out_spline := Some (spline st); out_scores := scores st;
         out_result :=
           match raised with
           | Some e => inl e
           | None => select parameter_sets (scores st) score_default
           end |}
  end.

(** The notebook, for given [dampings] and [mindists]. *)
Definition run (dampings mindists : list value) : run_out :=
  run_with (parameter_sets dampings mindists).

End GridSearch.

(** ** Cell 6 for any pools

    [combo[i]] on a tuple, for [i >= 0]. *)
Definition tuple_index (combo : list value) (i : nat) : exn + value :=
  match combo !! i with
  | Some x => inr x
  | None => inl (Raise "IndexError" "tuple index out of range")
  end.

(** The comprehension of cell 6 over whatever pools are handed to
    [itertools.product]; the two parameter names are fixed by the comprehension
    itself, which reads the components 0 and 1 of every combination.
    <<
    [dict(damping=combo[0], mindist=combo[1])
     for combo in itertools.product( *pools )]
    >> *)
Definition parameter_sets_of (pools : list (list value))
  : exn + list (gmap string value) :=
  mapM (λ combo, c0 ← tuple_index combo 0;
                 c1 ← tuple_index combo 1;
                 mret (dict2 c0 c1))
       (itertools_product pools).

(** The notebook with cell 6 over the given pools. Cell 4 runs before cell 6:
    an exception of the baseline scoring ends the run first; otherwise an
    exception of cell 6 ends it, with the baseline model scored and fitted and
    nothing else done. *)
Definition run_pools (Spline_defaults : gmap string value)
    (cross_val_score_mean : Spline → exn + Q) (pools : list (list value))
  : run_out :=
  match parameter_sets_of pools with
  | inr parameter_sets =>
      run_with Spline_defaults cross_val_score_mean parameter_sets
  | inl e =>
      let spline_default := new_Spline Spline_defaults in
      match cross_val_score_mean spline_default with
      | inl e0 =>
          {| out_calls := [spline_default];
             out_spline_default := spline_default;
             out_spline := None; out_scores := []; out_result := inl e0 |}
      | inr _ =>
          {| out_calls := [spline_default];
             out_spline_default := fit spline_default;
             out_spline := None; out_scores := []; out_result := inl e |}
      end
  end.

(** ** The notebook in a live kernel

    A notebook is re-run in a kernel that still holds the names assigned by
    whatever ran before, and the scoring library may keep state of its own
    from one call to the next. [kernel] is that state: [world] is the
    library's, the other fields are the global names of the notebook. A name
    that has not been assigned yet holds an arbitrary value here; the cells,
    run in order, assign every name before they read it. *)
Record kernel (W : Type) : Type := Kernel {
  world : W;
  g_spline_default : Spline;
  g_score_default : Q;
  g_parameter_sets : list (gmap string value);
  g_spline : Spline;
  g_scores : list Q
}.

Arguments Kernel {W} _ _ _ _ _ _.
Arguments world {W} _.
Arguments g_spline_default {W} _.
Arguments g_score_default {W} _.
Arguments g_parameter_sets {W} _.
Arguments g_spline {W} _.
Arguments g_scores {W} _.

Section Kernel.

Context {W : Type}.

Variable Spline_defaults : gmap string value.

(** [np.mean(vd.cross_val_score(model, ...))] together with what it does to
    the state of the library: the score or the exception, and the new state. *)
Variable cross_val_score : W → Spline → (exn + Q) * W.

(** Cell 4.
    <<
    spline_default = vd.Spline()
    score_default = np.mean(vd.cross_val_score(spline_default, ...))
    spline_default.fit(...)
    >> *)
Definition cell4 (k : kernel W) : option exn * kernel W :=
  let spline_default := new_Spline Spline_defaults in
  match cross_val_score (world k) spline_default with
  | (inl e, w) =>
      (Some e, {| world := w; g_spline_default := spline_default;
                  g_score_default := g_score_default k;
                  g_parameter_sets := g_parameter_sets k;
                  g_spline := g_spline k; g_scores := g_scores k |})
  | (inr score_default, w) =>
      (None, {| world := w; g_spline_default := fit spline_default;
                g_score_default := score_default;
                g_parameter_sets := g_parameter_sets k;
                g_spline := g_spline k; g_scores := g_scores k |})
  end.

(** Cell 6 assigns [parameter_sets]. *)
Definition cell6 (dampings mindists : list value) (k : kernel W) : kernel W :=
  {| world := world k; g_spline_default := g_spline_default k;
     g_score_default := g_score_default k;
     g_parameter_sets := parameter_sets dampings mindists;
     g_spline := g_spline k; g_scores := g_scores k |}.

(** The [for] loop of cell 8 over the remaining Configurations. *)
Fixpoint cell8_loop (remaining : list (gmap string value)) (k : kernel W)
  : option exn * kernel W :=
  match remaining with
  | [] => (None, k)
  | params :: rest =>
      let spline' := set_params (g_spline k) params in
      match cross_val_score (world k) spline' with
      | (inl e, w) =>
          (Some e, {| world := w; g_spline_default := g_spline_default k;
                      g_score_default := g_score_default k;
                      g_parameter_sets := g_parameter_sets k;
                      g_spline := spline'; g_scores := g_scores k |})
      | (inr score, w) =>
          cell8_loop rest
            {| world := w; g_spline_default := g_spline_default k;
               g_score_default := g_score_default k;
               g_parameter_sets := g_parameter_sets k;
               g_spline := spline'; g_scores := g_scores k ++ [score] |}
      end
  end.

(** Cell 8: [spline = vd.Spline()], [scores = []], then the loop over
    [parameter_sets]. *)
Definition cell8 (k : kernel W) : option exn * kernel W :=
  cell8_loop (g_parameter_sets k)
    {| world := world k; g_spline_default := g_spline_default k;
       g_score_default := g_score_default k;
       g_parameter_sets := g_parameter_sets k;
       g_spline := new_Spline Spline_defaults; g_scores := [] |}.

(** Cell 10 reads [scores], [score_default] and [parameter_sets]. *)
Definition cell10 (k : kernel W) : exn + Result :=
  select (g_parameter_sets k) (g_scores k) (g_score_default k).

(** One run of the notebook in the kernel [k]: the Result printed or the
    exception that ended the run, and the kernel it leaves. *)
Definition notebook (dampings mindists : list value) (k : kernel W)
  : (exn + Result) * kernel W :=
  match cell4 k with
  | (Some e, k4) => (inl e, k4)
  | (None, k4) =>
      match cell8 (cell6 dampings mindists k4) with
      | (Some e, k8) => (inl e, k8)
      | (None, k8) => (cell10 k8, k8)
      end
  end.

End Kernel.

(** A scoring library with state: the score is the number of calls made so
    far. *)
Definition counting_score (w : nat) (s : Spline) : (exn + Q) * nat :=
  (inr (inject_Z (Z.of_nat w)), S w).

(** A kernel in which the library state is [w] and nothing has run yet. *)
Definition new_kernel {W : Type} (w : W) : kernel W :=
  {| world := w; g_spline_default := new_Spline ∅; g_score_default := 0;
     g_parameter_sets := []; g_spline := new_Spline ∅; g_scores := [] |}.

(** The scenario of the spec: scores [-3.0, 0.84, 0.84, 0.85] in enumeration
    order of [{damping: [None, 0.01], mindist: [5000, 50000]}]. *)
Definition stub_score (s : Spline) : exn + Q :=
  match attrs s !! "damping", attrs s !! "mindist" with
  | Some VNone, Some (VFloat m) =>
      inr (if Qle_bool m 5000 then (-3)#1 else 84#100)
  | Some (VFloat _), Some (VFloat m) =>
      inr (if Qle_bool m 5000 then 84#100 else 85#100)
  | _, _ => inl (Raise "ValueError" "bad parameters")
  end.

Definition stub_defaults : gmap string value :=
  {[ "damping" := VNone; "mindist" := flt 1 100000 ]}.

(** The run ended with an exception of class [cls]. *)
Definition fails_with (cls : string) (o : run_out) : Prop :=
  ∃ e, out_result o = inl e ∧ exn_class e = cls.

(** The scoring function returns a score for a model configured with each of
    the given Configurations. *)
Definition all_scored (defaults : gmap string value) (cv : Spline → exn + Q)
    (ps : list (gmap string value)) : bool :=
  forallb (λ p, match cv (set_params (new_Spline defaults) p) with
                | inr _ => true
                | inl _ => false
                end) ps.

(** A scoring function that raises on the Configurations with a damping and
    [mindist <= 5000]. *)
Definition stub_raise (s : Spline) : exn + Q :=
  match attrs s !! "damping", attrs s !! "mindist" with
  | Some VNone, Some (VFloat m) =>
      inr (if Qle_bool m 5000 then (-3)#1 else 84#100)
  | Some (VFloat _), Some (VFloat m) =>
      if Qle_bool m 5000 then inl (Raise "LinAlgError" "Singular matrix")
      else inr (85#100)
  | _, _ => inl (Raise "ValueError" "bad parameters")
  end.

(** The single-parameter sweep [{x: [1, 2, 3]}]. *)
Definition x_sweep : list (gmap string value) :=
  (λ c : list value, from_option (λ v, {[ "x" := v ]}) ∅ (head c))
    <$> itertools_product [[flt 1 1; flt 2 1; flt 3 1]].

(** The lists of cell 6 and the outputs recorded in the notebook: the scores
    printed by cell 8 and the baseline printed by cell 4. *)
Definition notebook_dampings : list value :=
  [VNone; flt 1 10000; flt 1 1000; flt 1 100].

Definition notebook_mindists : list value :=
  [flt 5000 1; flt 10000 1; flt 50000 1; flt 100000 1].

Definition notebook_scores : list Q :=
  (λ n : Z, n # 10000000000000000) <$>
  [-30558088625105246; -10324987610313634; 8388935474419433; 8372297486556756;
   8357332950163141; 8302176127333297; 8503658696313814; 8423793938271420;
   8371791440825426; 8403780767301334; 8527945410881710; 8524545032000166;
   8403005442318481; 8344566205401425; 8431010546786940; 8486770494068516]%Z.

Definition notebook_score_default : Q := 7960375866932156 # 10000000000000000.

(** * Examples *)

Example parameter_sets_ex :
  parameter_sets [VNone; flt 1 100] [flt 5000 1; flt 50000 1] =
  [dict2 VNone (flt 5000 1); dict2 VNone (flt 50000 1);
   dict2 (flt 1 100) (flt 5000 1); dict2 (flt 1 100) (flt 50000 1)].
Proof. reflexivity. Qed.

Example np_argmax_ex : np_argmax [(-3)#1; 84#100; 84#100; 85#100] = inr 3%nat.
Proof. reflexivity. Qed.

Example np_argmax_tie : np_argmax [1#2; 7#10; 7#10; 1#5] = inr 1%nat.
Proof. reflexivity. Qed.

Example run_scenario :
  out_result
    (run stub_defaults stub_score [VNone; flt 1 100] [flt 5000 1; flt 50000 1])
  = inr {| best_score := 85#100; score_default := (-3)#1;
           best_params := dict2 (flt 1 100) (flt 50000 1) |}.
Proof. vm_compute. reflexivity. Qed.

(** Cell 10 on the recorded scores prints what the notebook shows: best score
    0.852794541088171, parameters [{'damping': 0.001, 'mindist': 50000.0}]. *)
Example notebook_selection :
  length (parameter_sets notebook_dampings notebook_mindists) = 16 ∧
  select (parameter_sets notebook_dampings notebook_mindists)
    notebook_scores notebook_score_default =
  inr {| best_score := 8527945410881710 # 10000000000000000;
         score_default := notebook_score_default;
         best_params := dict2 (flt 1 1000) (flt 50000 1) |}.
Proof. split; vm_compute; reflexivity. Qed.

(** * Enumeration *)

Lemma bind_nil_r {A B : Type} (l : list A) : l ≫= (λ _, @nil B) = [].
Proof. induction l as [|x l IH]; [done|]. by rewrite bind_cons, IH. Qed.

Lemma length_bind_const {A B : Type} (g : A → list B) (n : nat) (l : list A) :
  (∀ x, length (g x) = n) → length (l ≫= g) = length l * n.
Proof.
  intros Hg. induction l as [|x l IH]; [done|].
  rewrite bind_cons, length_app, Hg, IH. simpl. lia.
Qed.

Lemma bind_fmap_singleton {A B : Type} (g : A → B) (l : list A) :
  l ≫= (λ x, [g x]) = g <$> l.
Proof. induction l as [|x l IH]; [done|]. by rewrite bind_cons, IH. Qed.

(** Running the loop of [itertools.product] from any intermediate [result]
    extends every partial tuple by the nested loops over the remaining pools. *)
Lemma foldl_product_step {A : Type} (pools : list (list A)) (result : list (list A)) :
  foldl product_step result pools =
  pre ← result; tl ← nested_loops pools; [pre ++ tl].
Proof.
  revert result. induction pools as [|pool rest IH]; intros result; simpl.
  - induction result as [|pre result IHr]; [done|].
    rewrite bind_cons, <- IHr. simpl. by rewrite app_nil_r.
  - rewrite IH. unfold product_step.
    induction result as [|pre result IHr]; [done|].
    rewrite !bind_cons, bind_app, IHr. f_equal. clear IHr IH.
    induction pool as [|y pool IHp]; [done|].
    rewrite !bind_cons, !bind_app, IHp. f_equal.
    simpl. rewrite app_nil_r.
    generalize (nested_loops rest) as tls. intros tls.
    induction tls as [|tl tls IHt]; [done|].
    rewrite !bind_cons, IHt. simpl. by rewrite <- app_assoc.
Qed.

Lemma itertools_product_nested {A : Type} (pools : list (list A)) :
  itertools_product pools = nested_loops pools.
Proof.
  unfold itertools_product. rewrite foldl_product_step.
  rewrite bind_singleton. simpl.
  rewrite (bind_fmap_singleton id). apply list_fmap_id.
Qed.

Lemma length_nested_loops {A : Type} (pools : list (list A)) :
  length (nested_loops pools) = foldr (λ pool n, length pool * n) 1 pools.
Proof.
  induction pools as [|pool rest IH]; [done|]. simpl.
  rewrite (length_bind_const _ (length (nested_loops rest))), IH; [done|].
  intros x. rewrite (bind_fmap_singleton (cons x)). apply length_fmap.
Qed.

(** Cell 6 is the double loop [for x in dampings: for y in mindists]. *)
Lemma parameter_sets_nested (dampings mindists : list value) :
  parameter_sets dampings mindists =
  x ← dampings; y ← mindists; [dict2 x y].
Proof.
  unfold parameter_sets. rewrite itertools_product_nested. simpl.
  induction dampings as [|x dampings IH]; [done|].
  rewrite !bind_cons, fmap_app, IH. f_equal.
  rewrite !bind_fmap_singleton. simpl.
  rewrite <- !list_fmap_compose. by apply list_fmap_ext.
Qed.

Lemma length_parameter_sets (dampings mindists : list value) :
  length (parameter_sets dampings mindists) = length dampings * length mindists.
Proof.
  rewrite parameter_sets_nested.
  apply length_bind_const. intros x.
  rewrite bind_fmap_singleton. apply length_fmap.
Qed.

Lemma parameter_sets_lookup (dampings mindists : list value) (i j : nat) (x y : value) :
  dampings !! i = Some x → mindists !! j = Some y →
  parameter_sets dampings mindists !! (i * length mindists + j) = Some (dict2 x y).
Proof.
  rewrite parameter_sets_nested. revert i.
  induction dampings as [|x0 dampings IH]; intros i Hi Hj; [done|].
  rewrite bind_cons, bind_fmap_singleton.
  destruct i as [|i]; simpl in Hi.
  - injection Hi as ->. simpl.
    rewrite lookup_app_l by (rewrite length_fmap; by eapply lookup_lt_Some).
    by rewrite list_lookup_fmap, Hj.
  - rewrite lookup_app_r by (rewrite length_fmap; simpl; lia).
    rewrite length_fmap.
    replace (S i * length mindists + j - length mindists)
      with (i * length mindists + j) by (simpl; lia).
    by apply IH.
Qed.

Lemma parameter_sets_dom (dampings mindists : list value) :
  Forall (λ p : gmap string value, dom p = {[ "damping"; "mindist" ]})
    (parameter_sets dampings mindists).
Proof.
  rewrite parameter_sets_nested. apply Forall_forall. intros p Hp.
  apply list_elem_of_bind in Hp as (x & Hp & _).
  apply list_elem_of_bind in Hp as (y & Hp & _).
  apply list_elem_of_singleton in Hp as ->.
  unfold dict2. by rewrite dom_insert_L, dom_singleton_L.
Qed.

(** * Selection *)

Lemma Qle_bool_false (x y : Q) : Qle_bool x y = false → (y < x)%Q.
Proof.
  intros H. apply Qnot_le_lt. intros Hle.
  apply Qle_bool_iff in Hle. congruence.
Qed.

(** Invariant of the scan: the result is either the incoming index, with the
    incoming maximum unbeaten, or the position of a strictly larger element;
    nothing scanned exceeds the value found and everything scanned before it is
    strictly smaller. *)
Lemma argmax_scan_spec (ip : list Q) (mp : Q) (max_ind i : nat) :
  max_ind < i →
  ∃ s : Q,
    let r := argmax_scan mp max_ind i ip in
    ((r = max_ind ∧ s = mp) ∨ ((i ≤ r)%nat ∧ ip !! (r - i) = Some s ∧ (mp < s)%Q)) ∧
    (mp <= s)%Q ∧
    (∀ k w, ip !! k = Some w → (w <= s)%Q) ∧
    (∀ k w, ip !! k = Some w → i + k < r → (w < s)%Q).
Proof.
  revert mp max_ind i.
  induction ip as [|x ip IH]; intros mp max_ind i Hlt; simpl.
  - exists mp. split; [by left|]. split; [apply Qle_refl|]. by split.
  - destruct (Qle_bool x mp) eqn:Hx.
    + apply Qle_bool_iff in Hx.
      destruct (IH mp max_ind (S i)) as (s & Hr & Hs & Hmax & Hfirst); [lia|].
      exists s. simpl in *. split; [|split; [done|split]].
      * destruct Hr as [Hr|(Hle & Hlk & Hgt)]; [by left|right].
        split; [lia|]. split; [|done].
        replace (argmax_scan mp max_ind (S i) ip - i)
          with (S (argmax_scan mp max_ind (S i) ip - S i)) by lia.
        done.
      * intros [|k] w Hw; simpl in Hw.
        -- injection Hw as <-. by eapply Qle_trans.
        -- by eapply Hmax.
      * intros [|k] w Hw Hk; simpl in Hw.
        -- injection Hw as <-.
           destruct Hr as [[Hr _]|(_ & _ & Hgt)]; [lia|].
           by eapply Qle_lt_trans.
        -- eapply Hfirst; [done|lia].
    + apply Qle_bool_false in Hx.
      destruct (IH x i (S i)) as (s & Hr & Hs & Hmax & Hfirst); [lia|].
      exists s. simpl in *. split; [|split; [|split]].
      * right. destruct Hr as [[Hr ->]|(Hle & Hlk & Hgt)].
        -- rewrite Hr. split; [lia|]. by rewrite Nat.sub_diag.
        -- split; [lia|]. split; [|by eapply Qlt_trans].
           replace (argmax_scan x i (S i) ip - i)
             with (S (argmax_scan x i (S i) ip - S i)) by lia.
           done.
      * apply Qlt_le_weak. by eapply Qlt_le_trans.
      * intros [|k] w Hw; simpl in Hw.
        -- by injection Hw as <-.
        -- by eapply Hmax.
      * intros [|k] w Hw Hk; simpl in Hw.
        -- injection Hw as <-.
           destruct Hr as [[Hr _]|(_ & _ & Hgt)]; [lia|done].
        -- eapply Hfirst; [done|lia].
Qed.

(** [np.argmax] on a non-empty list: the index of the first maximum. *)
Lemma np_argmax_spec (a : list Q) :
  a ≠ [] →
  ∃ (best : nat) (s : Q),
    np_argmax a = inr best ∧ a !! best = Some s ∧
    (∀ j s', a !! j = Some s' → (s' <= s)%Q) ∧
    (∀ j s', j < best → a !! j = Some s' → (s' < s)%Q).
Proof.
  destruct a as [|x a]; [done|]. intros _. simpl.
  destruct (argmax_scan_spec a x 0 1) as (s & Hr & Hs & Hmax & Hfirst); [lia|].
  simpl in *. exists (argmax_scan x 0 1 a), s.
  split; [done|]. split; [|split].
  - destruct Hr as [[-> ->]|(Hle & Hlk & _)]; [done|].
    destruct (argmax_scan x 0 1 a) as [|r]; [lia|].
    replace (S r - 1) with r in Hlk by lia. done.
  - intros [|j] s' Hj; simpl in Hj; [by injection Hj as <-|by eapply Hmax].
  - intros [|j] s' Hlt Hj; simpl in Hj.
    + injection Hj as <-.
      destruct Hr as [[Hr _]|(_ & _ & Hgt)]; [lia|done].
    + eapply Hfirst; [done|lia].
Qed.

Lemma np_argmax_lt_length (a : list Q) (best : nat) :
  np_argmax a = inr best → best < length a.
Proof.
  intros Hbest. destruct a as [|x a]; [done|].
  destruct (np_argmax_spec (x :: a)) as (b & s & Hb & Hs & _); [done|].
  rewrite Hbest in Hb. injection Hb as <-. by eapply lookup_lt_Some.
Qed.

Lemma select_spec (pss : list (gmap string value)) (scs : list Q) (sd : Q) :
  scs ≠ [] → length pss = length scs →
  ∃ (best : nat) (p : gmap string value) (s : Q),
    np_argmax scs = inr best ∧
    select pss scs sd =
      inr {| best_score := s; score_default := sd; best_params := p |} ∧
    pss !! best = Some p ∧ scs !! best = Some s ∧
    (∀ j s', scs !! j = Some s' → (s' <= s)%Q) ∧
    (∀ j s', j < best → scs !! j = Some s' → (s' < s)%Q).
Proof.
  intros Hne Hlen.
  destruct (np_argmax_spec scs Hne) as (best & s & Hbest & Hs & Hmax & Hfirst).
  destruct (lookup_lt_is_Some_2 pss best) as [p Hp].
  { rewrite Hlen. by eapply lookup_lt_Some. }
  exists best, p, s. repeat split; try done.
  unfold select, py_index. rewrite Hbest. simpl. by rewrite Hs, Hp.
Qed.

(** * The scoring loop *)

Lemma zip_app_short {A B : Type} (l1 l2 : list A) (k : list B) :
  length l1 = length k → zip (l1 ++ l2) k = zip l1 k.
Proof.
  revert k. induction l1 as [|x l1 IH]; intros [|y k] Hlen; simpl in *;
    try done.
  - by destruct l2.
  - f_equal. apply IH. lia.
Qed.

Lemma Forall2_zip_Forall {A B : Type} (P : A → B → Prop)
    (l : list A) (k : list B) :
  Forall2 P l k → Forall (λ '(x, y), P x y) (zip l k).
Proof. induction 1; simpl; by constructor. Qed.

(** Assigning the keys of [q] and then those of [p] is assigning those of [p]
    when [p] has every key of [q]. *)
Lemma set_params_absorb (s : Spline) (p q : gmap string value) :
  dom q ⊆ dom p → set_params (set_params s q) p = set_params s p.
Proof.
  intros Hdom. unfold set_params. simpl. f_equal.
  apply map_eq. intros k. rewrite !lookup_union.
  destruct (p !! k) as [v|] eqn:Hp; [by destruct (q !! k), (attrs s !! k)|].
  assert (q !! k = None) as ->.
  { apply not_elem_of_dom. apply not_elem_of_dom in Hp. set_solver. }
  by destruct (attrs s !! k).
Qed.

Lemma set_params_empty (s : Spline) : set_params s ∅ = s.
Proof. destruct s. unfold set_params. simpl. by rewrite (left_id_L ∅ (∪)). Qed.

Section Sweep.

Variable defaults : gmap string value.
Variable cv : Spline → exn + Q.

Local Abbreviation new := (new_Spline defaults).
Local Abbreviation scored := (λ (p : gmap string value) (s : Q),
                            cv (set_params new p) = inr s).

(** Mutating the one shared model and configuring a fresh model per
    Configuration score the same models, as long as every Configuration
    assigns the same parameter names. *)
Lemma sweep_shared_fresh (D : gset string) (ps : list (gmap string value))
    (st : loop_state) (q : gmap string value) :
  dom q ⊆ D → spline st = set_params new q →
  Forall (λ p : gmap string value, dom p = D) ps →
  sweep cv ps st = sweep_fresh defaults cv ps st.
Proof.
  intros Hq Hst Hps. revert st q Hq Hst.
  induction Hps as [|p ps Hp Hps IH]; intros st q Hq Hst; [done|].
  simpl. rewrite Hst, set_params_absorb by (by rewrite Hp).
  destruct (cv (set_params new p)) as [e|s]; [done|].
  apply (IH _ p); [by rewrite Hp|done].
Qed.

Lemma sweep_fresh_ok (ps : list (gmap string value)) (ss : list Q)
    (st : loop_state) :
  Forall2 scored ps ss →
  sweep_fresh defaults cv ps st =
  (None, {| spline := from_option (set_params new) (spline st) (last ps);
            scores := scores st ++ ss;
            calls := calls st ++ (set_params new <$> ps) |}).
Proof.
  intros Hss. revert st.
  induction Hss as [|p s ps ss Hs Hss IH]; intros st.
  - destruct st. simpl. by rewrite !app_nil_r.
  - cbn [sweep_fresh]. cbv zeta. rewrite Hs, IH. cbn [spline scores calls].
    rewrite <- !app_assoc. do 2 f_equal.
    destruct ps as [|p' ps]; [done|].
    rewrite last_cons_cons.
    by destruct (last_is_Some (p' :: ps)) as [_ [pl ->]].
Qed.

Lemma sweep_fresh_raise (pre post : list (gmap string value))
    (p : gmap string value) (ss : list Q) (e : exn) (st : loop_state) :
  Forall2 scored pre ss → cv (set_params new p) = inl e →
  sweep_fresh defaults cv (pre ++ p :: post) st =
  (Some e, {| spline := set_params new p;
              scores := scores st ++ ss;
              calls := calls st ++ (set_params new <$> pre ++ [p]) |}).
Proof.
  intros Hss He. revert st.
  induction Hss as [|p0 s pre ss Hs Hss IH]; intros st.
  - simpl. by rewrite He, app_nil_r.
  - cbn [sweep_fresh app]. cbv zeta. rewrite Hs, IH. cbn [spline scores calls].
    by rewrite <- !app_assoc.
Qed.

(** Either every Configuration is scored, or there is a first one on which
    the scoring function raises. *)
Lemma scoring_cases (ps : list (gmap string value)) :
  (∃ ss, Forall2 scored ps ss) ∨
  (∃ pre p post ss e,
      ps = pre ++ p :: post ∧ Forall2 scored pre ss ∧
      cv (set_params new p) = inl e).
Proof.
  induction ps as [|p ps IH].
  - left. by exists [].
  - destruct (cv (set_params new p)) as [e|s] eqn:Hp.
    + right. by exists [], p, ps, [], e.
    + destruct IH as [[ss Hss]|(pre & p' & post & ss & e & -> & Hss & He)].
      * left. exists (s :: ss). by constructor.
      * right. exists (p :: pre), p', post, (s :: ss), e.
        split; [done|]. split; [by constructor|done].
Qed.

Lemma sweep_parameter_sets (dampings mindists : list value) :
  sweep cv (parameter_sets dampings mindists)
    {| spline := new; scores := []; calls := [new] |} =
  sweep_fresh defaults cv (parameter_sets dampings mindists)
    {| spline := new; scores := []; calls := [new] |}.
Proof.
  apply (sweep_shared_fresh {[ "damping"; "mindist" ]} _ _ ∅).
  - rewrite dom_empty_L. set_solver.
  - simpl. by rewrite set_params_empty.
  - apply parameter_sets_dom.
Qed.

Lemma run_baseline_raises (dampings mindists : list value) (e : exn) :
  cv new = inl e →
  run defaults cv dampings mindists =
  {| out_calls := [new]; out_spline_default := new; out_spline := None;
     out_scores := []; out_result := inl e |}.
Proof. intros He. unfold run, run_with. by rewrite He. Qed.

Lemma run_completes (dampings mindists : list value) (sd : Q) (ss : list Q) :
  cv new = inr sd →
  Forall2 scored (parameter_sets dampings mindists) ss →
  run defaults cv dampings mindists =
  {| out_calls := new :: (set_params new <$> parameter_sets dampings mindists);
     out_spline_default := fit new;
     out_spline :=
       Some (from_option (set_params new) new
               (last (parameter_sets dampings mindists)));
     out_scores := ss;
     out_result := select (parameter_sets dampings mindists) ss sd |}.
Proof.
  intros Hsd Hss. unfold run, run_with.
  by rewrite Hsd, sweep_parameter_sets, (sweep_fresh_ok _ ss).
Qed.

Lemma run_aborts (dampings mindists : list value) (sd : Q)
    (pre post : list (gmap string value)) (p : gmap string value)
    (ss : list Q) (e : exn) :
  cv new = inr sd →
  parameter_sets dampings mindists = pre ++ p :: post →
  Forall2 scored pre ss → cv (set_params new p) = inl e →
  run defaults cv dampings mindists =
  {| out_calls := new :: (set_params new <$> pre ++ [p]);
     out_spline_default := fit new;
     out_spline := Some (set_params new p);
     out_scores := ss;
     out_result := inl e |}.
Proof.
  intros Hsd Hps Hss He. unfold run, run_with.
  by rewrite Hsd, sweep_parameter_sets, Hps, (sweep_fresh_raise _ _ _ ss e).
Qed.

Lemma all_scored_Forall2 (ps : list (gmap string value)) :
  all_scored defaults cv ps = true → ∃ ss, Forall2 scored ps ss.
Proof.
  induction ps as [|p ps IH]; simpl; intros Hall; [by exists []|].
  apply andb_prop in Hall as [Hp Hps].
  destruct (cv (set_params new p)) as [e|s] eqn:Hs; [done|].
  destruct (IH Hps) as [ss Hss]. exists (s :: ss). by constructor.
Qed.

Lemma parameter_sets_nonempty (dampings mindists : list value) :
  dampings ≠ [] → mindists ≠ [] → parameter_sets dampings mindists ≠ [].
Proof.
  intros Hd Hm Hps. apply (f_equal length) in Hps.
  rewrite length_parameter_sets in Hps.
  destruct dampings, mindists; simpl in *; done || lia.
Qed.

End Sweep.

(** On the two pools of the notebook the comprehension over any pools is
    cell 6 and never raises. *)
Lemma mapM_inr {A B : Type} (f : A → exn + B) (g : A → B) (l : list A) :
  Forall (λ x, f x = inr (g x)) l → mapM f l = inr (g <$> l).
Proof.
  induction 1 as [|x l Hx Hl IH]; [done|].
  simpl. rewrite Hx. simpl. by rewrite IH.
Qed.

Lemma parameter_sets_of_two (dampings mindists : list value) :
  parameter_sets_of [dampings; mindists] =
  inr (parameter_sets dampings mindists).
Proof.
  unfold parameter_sets_of, parameter_sets. apply mapM_inr, Forall_forall.
  intros c Hc. rewrite itertools_product_nested in Hc. simpl in Hc.
  apply list_elem_of_bind in Hc as (x & Hc & _).
  apply list_elem_of_bind in Hc as (tl & Hc & Htl).
  apply list_elem_of_singleton in Hc as ->.
  apply list_elem_of_bind in Htl as (y & Htl & _).
  by apply list_elem_of_singleton in Htl as ->.
Qed.

Lemma run_pools_notebook (defaults : gmap string value)
    (cv : Spline → exn + Q) (dampings mindists : list value) :
  run_pools defaults cv [dampings; mindists] = run defaults cv dampings mindists.
Proof. unfold run_pools. by rewrite parameter_sets_of_two. Qed.

(** ** The kernel runs and the runs of [run] *)

Section KernelRuns.

Context {W : Type}.
Variable defaults : gmap string value.
Variable scorer : W → Spline → (exn + Q) * W.

(** The scoring library gives the same answer whatever its state. *)
Hypothesis scorer_stateless : ∀ w w' s, (scorer w s).1 = (scorer w' s).1.

Variable w0 : W.

Local Abbreviation cv0 := (λ s : Spline, (scorer w0 s).1).

Lemma cell8_loop_sweep (ps : list (gmap string value)) (k : kernel W)
    (st : loop_state) :
  spline st = g_spline k → scores st = g_scores k →
  (cell8_loop scorer ps k).1 = (sweep cv0 ps st).1 ∧
  g_spline (cell8_loop scorer ps k).2 = spline (sweep cv0 ps st).2 ∧
  g_scores (cell8_loop scorer ps k).2 = scores (sweep cv0 ps st).2 ∧
  g_parameter_sets (cell8_loop scorer ps k).2 = g_parameter_sets k ∧
  g_score_default (cell8_loop scorer ps k).2 = g_score_default k.
Proof.
  revert k st. induction ps as [|p ps IH]; intros k st Hsp Hsc; [done|].
  simpl. rewrite Hsp.
  rewrite <- (scorer_stateless (world k) w0 (set_params (g_spline k) p)).
  destruct (scorer (world k) (set_params (g_spline k) p)) as [[e|s] w]; simpl.
  - by rewrite Hsc.
  - rewrite Hsc.
    destruct (IH {| world := w; g_spline_default := g_spline_default k;
                    g_score_default := g_score_default k;
                    g_parameter_sets := g_parameter_sets k;
                    g_spline := set_params (g_spline k) p;
                    g_scores := g_scores k ++ [s] |}
                 {| spline := set_params (g_spline k) p;
                    scores := g_scores k ++ [s];
                    calls := calls st ++ [set_params (g_spline k) p] |})
      as (H1 & H2 & H3 & H4 & H5); done.
Qed.

(** A run in any kernel ends as the run of [run] does and, when the baseline
    is scored, leaves the Configurations, the scores and the shared model of
    that run. *)
Lemma notebook_run (dampings mindists : list value) (k : kernel W) :
  (notebook defaults scorer dampings mindists k).1 =
    out_result (run defaults cv0 dampings mindists) ∧
  (∀ sd, cv0 (new_Spline defaults) = inr sd →
     g_parameter_sets (notebook defaults scorer dampings mindists k).2 =
       parameter_sets dampings mindists ∧
     g_scores (notebook defaults scorer dampings mindists k).2 =
       out_scores (run defaults cv0 dampings mindists) ∧
     Some (g_spline (notebook defaults scorer dampings mindists k).2) =
       out_spline (run defaults cv0 dampings mindists)).
Proof.
  unfold notebook, cell4, run, run_with.
  rewrite <- (scorer_stateless (world k) w0 (new_Spline defaults)).
  destruct (scorer (world k) (new_Spline defaults)) as [[e|sd] w]; simpl.
  { split; [done|]. by intros sd. }
  unfold cell8, cell6. cbn [g_parameter_sets world g_spline_default
                            g_score_default].
  match goal with
  | |- context [cell8_loop scorer ?ps ?k0] =>
      destruct (cell8_loop_sweep ps k0
                  {| spline := new_Spline defaults; scores := [];
                     calls := [new_Spline defaults] |})
        as (H1 & H2 & H3 & H4 & H5); [done|done|];
      destruct (cell8_loop scorer ps k0) as [r k8]
  end.
  destruct (sweep cv0 (parameter_sets dampings mindists) _) as [raised st].
  simpl in *. subst r.
  destruct raised as [e|]; simpl.
  - split; [done|]. intros _ _. by rewrite H2, H3, H4.
  - unfold cell10. rewrite H3, H4, H5. split; [done|].
    intros _ _. by rewrite H2.
Qed.

End KernelRuns.

(** * The claims *)

(** C1. Selection is a stable argmax. For every non-empty sequence of recorded
    (Configuration, score) pairs, cell 10 returns the pair at some index
    [best] such that no recorded score exceeds its score and every score
    recorded before [best] is strictly smaller, so among tied maxima the
    earliest is returned. For the sweep [{x: [1, 2, 3]}], which has three
    Configurations, with all scores equal it returns [x = 1]. *)
Theorem selection_stable_argmax :
  (∀ (records : list (gmap string value * Q)) (sd : Q),
      records ≠ [] →
      ∃ (best : nat) (p : gmap string value) (s : Q),
        select records.*1 records.*2 sd =
          inr {| best_score := s; score_default := sd; best_params := p |} ∧
        records !! best = Some (p, s) ∧
        (∀ j p' s', records !! j = Some (p', s') → (s' <= s)%Q) ∧
        (∀ j p' s', j < best → records !! j = Some (p', s') → (s' < s)%Q)) ∧
  (x_sweep = [{[ "x" := flt 1 1 ]}; {[ "x" := flt 2 1 ]}; {[ "x" := flt 3 1 ]}] ∧
   ∀ s sd : Q,
      select x_sweep [s; s; s] sd =
        inr {| best_score := s; score_default := sd;
               best_params := {[ "x" := flt 1 1 ]} |}).
Proof.
  split.
  - intros records sd Hne.
    destruct (select_spec records.*1 records.*2 sd)
      as (best & p & s & _ & Hsel & Hp & Hs & Hmax & Hfirst).
    { by destruct records. }
    { by rewrite !length_fmap. }
    exists best, p, s.
    rewrite list_lookup_fmap in Hp. rewrite list_lookup_fmap in Hs.
    split; [done|]. split; [|split].
    + destruct (records !! best) as [[p0 s0]|]; [|done].
      simpl in *. congruence.
    + intros j p' s' Hj. apply (Hmax j). by rewrite list_lookup_fmap, Hj.
    + intros j p' s' Hlt Hj. apply (Hfirst j); [done|].
      by rewrite list_lookup_fmap, Hj.
  - split; [reflexivity|]. intros s sd.
    unfold select, np_argmax. simpl.
    assert (Qle_bool s s = true) as -> by (apply Qle_bool_iff, Qle_refl).
    reflexivity.
Qed.

Lemma selection_stable_argmax_witness :
  ∃ (best : nat) (p : gmap string value) (s : Q),
    select [dict2 VNone (flt 5000 1); dict2 VNone (flt 50000 1)]
           [84#100; 84#100] (79#100) =
      inr {| best_score := s; score_default := 79#100; best_params := p |} ∧
    best = 0.
Proof.
  destruct (proj1 selection_stable_argmax
              [(dict2 VNone (flt 5000 1), 84#100);
               (dict2 VNone (flt 50000 1), 84#100)] (79#100))
    as (best & p & s & Hsel & Hbest & _ & Hfirst); [done|].
  exists best, p, s. split; [exact Hsel|].
  destruct best as [|[|best]]; [done| |done].
  exfalso. injection Hbest as _ <-.
  by apply (Qlt_irrefl (84#100)), (Hfirst 0 (dict2 VNone (flt 5000 1))); [lia|].
Defined.

(** C2. The number of Configurations enumerated is the product of the sizes of
    the candidate sequences: for [itertools.product] over any number of pools,
    and for the two pools of cell 6. *)
Theorem enumeration_count :
  (∀ (A : Type) (pools : list (list A)),
      length (itertools_product pools) =
      foldr (λ pool n, length pool * n) 1 pools) ∧
  (∀ dampings mindists : list value,
      length (parameter_sets dampings mindists) =
      length dampings * length mindists).
Proof.
  split.
  - intros A pools. rewrite itertools_product_nested. apply length_nested_loops.
  - apply length_parameter_sets.
Qed.

(** C3. The enumeration is in nested-loop order with the last-declared
    parameter iterated fastest: [itertools.product] equals the nested loops with
    the first pool outermost, adding a pool at the end makes it the innermost
    loop, the Configuration of the [i]-th damping and the [j]-th mindist is at
    index [i * len(mindists) + j], and
    [{damping: [None, 0.01], mindist: [5000, 50000]}] gives
    (None,5000), (None,50000), (0.01,5000), (0.01,50000). *)
Theorem enumeration_order :
  (∀ (A : Type) (pools : list (list A)),
      itertools_product pools = nested_loops pools) ∧
  (∀ (A : Type) (pools : list (list A)) (pool : list A),
      itertools_product (pools ++ [pool]) =
      pre ← itertools_product pools; y ← pool; [pre ++ [y]]) ∧
  (∀ (dampings mindists : list value) (i j : nat) (x y : value),
      dampings !! i = Some x → mindists !! j = Some y →
      parameter_sets dampings mindists !! (i * length mindists + j) =
      Some (dict2 x y)) ∧
  parameter_sets [VNone; flt 1 100] [flt 5000 1; flt 50000 1] =
    [dict2 VNone (flt 5000 1); dict2 VNone (flt 50000 1);
     dict2 (flt 1 100) (flt 5000 1); dict2 (flt 1 100) (flt 50000 1)].
Proof.
  split; [intros A; apply itertools_product_nested|].
  split; [|split; [apply parameter_sets_lookup|reflexivity]].
  intros A pools pool. unfold itertools_product.
  by rewrite foldl_app.
Qed.

Lemma enumeration_order_witness :
  parameter_sets [VNone; flt 1 100] [flt 5000 1; flt 50000 1] !! (1 * 2 + 0) =
  Some (dict2 (flt 1 100) (flt 5000 1)).
Proof.
  apply (proj1 (proj2 (proj2 enumeration_order))
           [VNone; flt 1 100] [flt 5000 1; flt 50000 1] 1 0);
    reflexivity.
Defined.




(** C5, as stated, fails: the scoring function raises [LinAlgError] on the
    third of four Configurations and the run ends with that very exception, not
    with an [EvaluationFailure]; a sweep whose first Configuration
    (0.001, 5000) is the offending one ends with the same exception value, so
    the exception does not carry the Configuration. *)
Lemma scoring_error_not_wrapped :
  let o := run stub_defaults stub_raise
             [VNone; flt 1 100] [flt 5000 1; flt 50000 1] in
  out_result o = inl (Raise "LinAlgError" "Singular matrix") ∧
  ¬ fails_with "EvaluationFailure" o ∧
  out_result (run stub_defaults stub_raise [flt 1 1000] [flt 5000 1]) =
    out_result o.
Proof.
  split; [reflexivity|]. split; [|reflexivity].
  intros (e & He & Hcls). vm_compute in He. injection He as <-.
  discriminate Hcls.
Qed.

(** C5, amended. If the scoring function raises for some Configuration (having
    scored the baseline and the Configurations before it), the run ends with
    the scoring function's own exception, unchanged; the models scored are the
    baseline, the earlier Configurations and the offending one, so the
    remaining Configurations are not scored; the scores of the earlier
    Configurations are all that is recorded, no Result is produced, and the
    shared model is left holding the offending Configuration. *)
Theorem scoring_error_propagates
    (defaults : gmap string value) (cv : Spline → exn + Q)
    (dampings mindists : list value) (sd : Q)
    (pre post : list (gmap string value)) (p : gmap string value) (e : exn) :
  cv (new_Spline defaults) = inr sd →
  parameter_sets dampings mindists = pre ++ p :: post →
  all_scored defaults cv pre = true →
  cv (set_params (new_Spline defaults) p) = inl e →
  let o := run defaults cv dampings mindists in
  out_result o = inl e ∧
  out_calls o =
    new_Spline defaults :: (set_params (new_Spline defaults) <$> pre ++ [p]) ∧
  Forall2 (λ q s, cv (set_params (new_Spline defaults) q) = inr s)
    pre (out_scores o) ∧
  out_spline o = Some (set_params (new_Spline defaults) p).
Proof.
  intros Hsd Hps Hpre He.
  destruct (all_scored_Forall2 _ _ _ Hpre) as [ss Hss].
  simpl. by rewrite (run_aborts _ _ _ _ sd pre post p ss e).
Qed.

Lemma scoring_error_propagates_witness :
  out_result (run stub_defaults stub_raise
                [VNone; flt 1 100] [flt 5000 1; flt 50000 1]) =
  inl (Raise "LinAlgError" "Singular matrix").
Proof.
  apply (scoring_error_propagates stub_defaults stub_raise
           [VNone; flt 1 100] [flt 5000 1; flt 50000 1] ((-3)#1)
           [dict2 VNone (flt 5000 1); dict2 VNone (flt 50000 1)]
           [dict2 (flt 1 100) (flt 50000 1)]
           (dict2 (flt 1 100) (flt 5000 1))
           (Raise "LinAlgError" "Singular matrix"));
    reflexivity.
Defined.

(** C6. The loop processes the Configurations one at a time in enumeration
    order: the models handed to the scoring function are, after the baseline
    model, the shared model configured with the first, second, ... Configuration,
    and the recorded scores are, one for one and in order, the scores of the
    models configured with the Configurations processed so far. When the
    scoring function returns a score for the baseline and for every
    Configuration, there is exactly one recorded score per Configuration: the
    i-th score is that of the i-th Configuration of the enumeration. *)
Theorem score_records_in_order
    (defaults : gmap string value) (cv : Spline → exn + Q)
    (dampings mindists : list value) :
  let o := run defaults cv dampings mindists in
  (∃ n, out_calls o =
          new_Spline defaults ::
          (set_params (new_Spline defaults) <$>
             take n (parameter_sets dampings mindists))) ∧
  (∃ processed rest,
      parameter_sets dampings mindists = processed ++ rest ∧
      Forall2 (λ p s, cv (set_params (new_Spline defaults) p) = inr s)
        processed (out_scores o)) ∧
  (∀ sd, cv (new_Spline defaults) = inr sd →
     all_scored defaults cv (parameter_sets dampings mindists) = true →
     out_calls o =
       new_Spline defaults ::
       (set_params (new_Spline defaults) <$> parameter_sets dampings mindists) ∧
     Forall2 (λ p s, cv (set_params (new_Spline defaults) p) = inr s)
       (parameter_sets dampings mindists) (out_scores o) ∧
     length (out_scores o) = length dampings * length mindists).
Proof.
  simpl.
  destruct (cv (new_Spline defaults)) as [e|sd] eqn:Hsd.
  { rewrite (run_baseline_raises _ _ _ _ e) by done. cbn [out_calls out_scores].
    split; [by exists 0|].
    split; [by exists [], (parameter_sets dampings mindists)|]. done. }
  destruct (scoring_cases defaults cv (parameter_sets dampings mindists))
    as [[ss Hss]|(pre & p & post & ss & e & Hps & Hss & He)].
  - rewrite (run_completes _ _ _ _ sd ss) by done. cbn [out_calls out_scores].
    pose proof (Forall2_length _ _ _ Hss) as Hlen.
    split; [exists (length (parameter_sets dampings mindists));
            by rewrite firstn_all|].
    split.
    { exists (parameter_sets dampings mindists), []. by rewrite app_nil_r. }
    intros _ _ _. split; [done|]. split; [done|].
    rewrite <- Hlen. apply length_parameter_sets.
  - rewrite (run_aborts _ _ _ _ sd pre post p ss e) by done.
    cbn [out_calls out_scores].
    split.
    { exists (S (length pre)). rewrite Hps.
      rewrite (take_S_r _ _ p) by apply list_lookup_middle, eq_refl.
      by rewrite take_app_length. }
    split; [by exists pre, (p :: post)|].
    intros sd' _ Hall. exfalso. rewrite Hps in Hall. unfold all_scored in Hall.
    rewrite forallb_app in Hall. simpl in Hall. rewrite He in Hall.
    by rewrite andb_false_r in Hall.
Qed.

Lemma score_records_in_order_witness :
  length (out_scores (run stub_defaults stub_score
                        [VNone; flt 1 100] [flt 5000 1; flt 50000 1])) = 2 * 2.
Proof.
  apply (score_records_in_order stub_defaults stub_score
           [VNone; flt 1 100] [flt 5000 1; flt 50000 1]) with (sd := (-3)#1);
    reflexivity.
Defined.

(** C7. The evaluator is deterministic. Two runs of the notebook with the same
    candidate lists, the same model defaults and a scoring function whose answer
    does not depend on the state of the scoring library end alike and leave the
    same Configurations and the same recorded scores, whatever the kernels they
    start in hold; in particular a second run in the kernel left by the first
    repeats its Score Records. A scoring routine whose answers depend on its
    own state, such as one that counts its calls, is not a function of the
    model, and with it a second run records other scores. *)
Theorem run_deterministic :
  (∀ (W : Type) (defaults : gmap string value)
     (scorer : W → Spline → (exn + Q) * W)
     (dampings mindists : list value),
      (∀ w w' s, (scorer w s).1 = (scorer w' s).1) →
      ∀ k k' : kernel W,
        (notebook defaults scorer dampings mindists k).1 =
        (notebook defaults scorer dampings mindists k').1 ∧
        (∀ sd, (scorer (world k) (new_Spline defaults)).1 = inr sd →
           g_parameter_sets (notebook defaults scorer dampings mindists k).2 =
           g_parameter_sets (notebook defaults scorer dampings mindists k').2 ∧
           g_scores (notebook defaults scorer dampings mindists k).2 =
           g_scores (notebook defaults scorer dampings mindists k').2 ∧
           g_spline (notebook defaults scorer dampings mindists k).2 =
           g_spline (notebook defaults scorer dampings mindists k').2) ∧
        (notebook defaults scorer dampings mindists
           (notebook defaults scorer dampings mindists k).2).1 =
        (notebook defaults scorer dampings mindists k).1) ∧
  (let first := notebook ∅ counting_score [VNone] [flt 5000 1; flt 50000 1]
                  (new_kernel 0) in
   let second := notebook ∅ counting_score [VNone] [flt 5000 1; flt 50000 1]
                   first.2 in
   g_scores first.2 = [1; 2]%Q ∧ g_scores second.2 = [4; 5]%Q).
Proof.
  split; [|by split].
  intros W defaults scorer dampings mindists Hdet k k'.
  destruct (notebook_run defaults scorer Hdet (world k) dampings mindists k)
    as [Hr Hk].
  destruct (notebook_run defaults scorer Hdet (world k) dampings mindists k')
    as [Hr' Hk'].
  split; [by rewrite Hr, Hr'|]. split.
  - intros sd Hsd.
    destruct (Hk sd Hsd) as (H1 & H2 & H3).
    destruct (Hk' sd Hsd) as (H1' & H2' & H3').
    split; [by rewrite H1, H1'|]. split; [by rewrite H2, H2'|].
    rewrite <- H3' in H3. by injection H3.
  - destruct (notebook_run defaults scorer Hdet (world k) dampings mindists
                (notebook defaults scorer dampings mindists k).2) as [Hr2 _].
    by rewrite Hr2, Hr.
Qed.

Lemma run_deterministic_witness :
  g_scores (notebook stub_defaults (λ (_ : unit) s, (stub_score s, tt))
              [VNone; flt 1 100] [flt 5000 1; flt 50000 1]
              (new_kernel tt)).2 =
  g_scores (notebook stub_defaults (λ (_ : unit) s, (stub_score s, tt))
              [VNone; flt 1 100] [flt 5000 1; flt 50000 1]
              (notebook stub_defaults (λ (_ : unit) s, (stub_score s, tt))
                 [VNone; flt 1 100] [flt 5000 1; flt 50000 1]
                 (new_kernel tt)).2).2.
Proof.
  apply (proj1 run_deterministic unit stub_defaults
           (λ (_ : unit) s, (stub_score s, tt))
           [VNone; flt 1 100] [flt 5000 1; flt 50000 1]
           (λ _ _ _, eq_refl) (new_kernel tt)
           (notebook stub_defaults (λ (_ : unit) s, (stub_score s, tt))
              [VNone; flt 1 100] [flt 5000 1; flt 50000 1]
              (new_kernel tt)).2) with (sd := (-3)#1).
  reflexivity.
Defined.

(** C8. When the baseline and every Configuration of a non-empty Parameter
    Space are scored, the run produces a Result with three parts: a
    Configuration of the sweep, the score of the model configured with it,
    which no other Configuration's score exceeds, and the score of the default,
    unconfigured model. *)
Theorem result_parts
    (defaults : gmap string value) (cv : Spline → exn + Q)
    (dampings mindists : list value) (sd : Q) :
  cv (new_Spline defaults) = inr sd →
  dampings ≠ [] → mindists ≠ [] →
  all_scored defaults cv (parameter_sets dampings mindists) = true →
  ∃ r : Result,
    out_result (run defaults cv dampings mindists) = inr r ∧
    best_params r ∈ parameter_sets dampings mindists ∧
    cv (set_params (new_Spline defaults) (best_params r)) = inr (best_score r) ∧
    (∀ p s, p ∈ parameter_sets dampings mindists →
            cv (set_params (new_Spline defaults) p) = inr s →
            (s <= best_score r)%Q) ∧
    cv (new_Spline defaults) = inr (score_default r).
Proof.
  intros Hsd Hd Hm Hall.
  destruct (all_scored_Forall2 _ _ _ Hall) as [ss Hss].
  pose proof (parameter_sets_nonempty _ _ Hd Hm) as Hne.
  pose proof (Forall2_length _ _ _ Hss) as Hlen.
  destruct (select_spec (parameter_sets dampings mindists) ss sd)
    as (best & p & s & _ & Hsel & Hp & Hs & Hmax & _); [|done|].
  { intros ->. by destruct (parameter_sets dampings mindists). }
  rewrite (run_completes _ _ _ _ sd ss) by done. cbn [out_result].
  eexists. split; [exact Hsel|]. simpl.
  split; [by eapply list_elem_of_lookup_2|].
  split; [by eapply (Forall2_lookup_lr _ _ _ best) in Hss|].
  split; [|done].
  intros p' s' Hp' Hs'. apply list_elem_of_lookup in Hp' as [j Hj].
  destruct (Forall2_lookup_l _ _ _ j p' Hss Hj) as (s'' & Hj' & Hs'').
  rewrite Hs' in Hs''. injection Hs'' as <-. by eapply Hmax.
Qed.

Lemma result_parts_witness :
  ∃ r : Result,
    out_result (run stub_defaults stub_score
                  [VNone; flt 1 100] [flt 5000 1; flt 50000 1]) = inr r ∧
    stub_score (new_Spline stub_defaults) = inr (score_default r).
Proof.
  destruct (result_parts stub_defaults stub_score
              [VNone; flt 1 100] [flt 5000 1; flt 50000 1] ((-3)#1))
    as (r & Hr & _ & _ & _ & Hsd); [reflexivity|done|done|reflexivity|].
  by exists r.
Defined.

(** C9. After a completed sweep the shared model holds the last-enumerated
    Configuration: its attributes are those assigned by the last
    [set_params]. Selection is computed from the Configurations and the
    recorded scores alone and leaves the model as the loop left it; with
    mindists [50000, 5000] and dampings [None, 0.01] the best Configuration is
    (0.01, 50000) while the model holds (0.01, 5000). *)
Theorem model_holds_last_configuration :
  (∀ (defaults : gmap string value) (cv : Spline → exn + Q)
     (dampings mindists : list value) (sd : Q) (plast : gmap string value),
      cv (new_Spline defaults) = inr sd →
      all_scored defaults cv (parameter_sets dampings mindists) = true →
      last (parameter_sets dampings mindists) = Some plast →
      let o := run defaults cv dampings mindists in
      out_spline o = Some (set_params (new_Spline defaults) plast) ∧
      (∀ k v, plast !! k = Some v →
              (attrs <$> out_spline o) ≫= (λ a, a !! k) = Some v) ∧
      out_result o =
        select (parameter_sets dampings mindists) (out_scores o) sd) ∧
  (let o := run stub_defaults stub_score
              [VNone; flt 1 100] [flt 50000 1; flt 5000 1] in
   ∃ r : Result,
     out_result o = inr r ∧
     best_params r = dict2 (flt 1 100) (flt 50000 1) ∧
     out_spline o =
       Some (set_params (new_Spline stub_defaults)
               (dict2 (flt 1 100) (flt 5000 1))) ∧
     out_spline o ≠
       Some (set_params (new_Spline stub_defaults) (best_params r))).
Proof.
  split.
  - intros defaults cv dampings mindists sd plast Hsd Hall Hlast.
    destruct (all_scored_Forall2 _ _ _ Hall) as [ss Hss].
    simpl. rewrite (run_completes _ _ _ _ sd ss) by done.
    cbn [out_spline out_result out_scores]. rewrite Hlast. simpl.
    split; [done|]. split; [|done].
    intros k v Hk. by apply lookup_union_Some_l.
  - eexists. split; [reflexivity|]. split; [reflexivity|].
    split; [reflexivity|].
    intros Heq.
    apply (f_equal (λ sp, (attrs <$> sp) ≫= (λ a, a !! "mindist"))) in Heq.
    vm_compute in Heq. discriminate Heq.
Qed.

Lemma model_holds_last_configuration_witness :
  out_spline (run stub_defaults stub_score
                [VNone; flt 1 100] [flt 50000 1; flt 5000 1]) =
  Some (set_params (new_Spline stub_defaults) (dict2 (flt 1 100) (flt 5000 1))).
Proof.
  apply (proj1 model_holds_last_configuration stub_defaults stub_score
           [VNone; flt 1 100] [flt 50000 1; flt 5000 1] ((-3)#1)
           (dict2 (flt 1 100) (flt 5000 1)));
    reflexivity.
Defined.

(** C10. For a non-empty Parameter Space whose Configurations (and baseline)
    are all scored, the recorded scores are as many as the Configurations, so
    the index chosen by [np.argmax] is within both lists and the two indexings
    of cell 10 do not raise. *)
Theorem argmax_in_bounds
    (defaults : gmap string value) (cv : Spline → exn + Q)
    (dampings mindists : list value) (sd : Q) :
  cv (new_Spline defaults) = inr sd →
  dampings ≠ [] → mindists ≠ [] →
  all_scored defaults cv (parameter_sets dampings mindists) = true →
  let o := run defaults cv dampings mindists in
  length (out_scores o) = length (parameter_sets dampings mindists) ∧
  ∃ (best : nat) (p : gmap string value) (s : Q),
    np_argmax (out_scores o) = inr best ∧
    best < length (parameter_sets dampings mindists) ∧
    py_index (out_scores o) best = inr s ∧
    py_index (parameter_sets dampings mindists) best = inr p.
Proof.
  intros Hsd Hd Hm Hall.
  destruct (all_scored_Forall2 _ _ _ Hall) as [ss Hss].
  pose proof (parameter_sets_nonempty _ _ Hd Hm) as Hne.
  pose proof (Forall2_length _ _ _ Hss) as Hlen.
  simpl. rewrite (run_completes _ _ _ _ sd ss) by done. cbn [out_scores].
  split; [done|].
  destruct (select_spec (parameter_sets dampings mindists) ss sd)
    as (best & p & s & Hbest & _ & Hp & Hs & _); [|done|].
  { intros ->. by destruct (parameter_sets dampings mindists). }
  exists best, p, s. split; [done|].
  split; [by eapply lookup_lt_Some|].
  unfold py_index. by rewrite Hs, Hp.
Qed.

Lemma argmax_in_bounds_witness :
  length (out_scores (run stub_defaults stub_score
                        [VNone; flt 1 100] [flt 5000 1; flt 50000 1])) =
  length (parameter_sets [VNone; flt 1 100] [flt 5000 1; flt 50000 1]).
Proof.
  apply (argmax_in_bounds stub_defaults stub_score
           [VNone; flt 1 100] [flt 5000 1; flt 50000 1] ((-3)#1));
    (reflexivity || done).
Defined.

(** * Further properties of the enumeration *)

Lemma nested_loops_elem {A : Type} (pools : list (list A)) (t : list A) :
  t ∈ nested_loops pools ↔ Forall2 (λ x pool, x ∈ pool) t pools.
Proof.
  revert t. induction pools as [|pool rest IH]; intros t; simpl.
  - rewrite list_elem_of_singleton. split; [by intros ->|].
    apply Forall2_nil_inv_r.
  - rewrite list_elem_of_bind. split.
    + intros (x & Ht & Hx). apply list_elem_of_bind in Ht as (tl & Ht & Htl).
      apply list_elem_of_singleton in Ht as ->.
      constructor; [done|by apply IH].
    + intros Ht. apply Forall2_cons_inv_r in Ht as (x & tl & Hx & Htl & ->).
      exists x. split; [|done]. apply list_elem_of_bind.
      exists tl. split; [by apply list_elem_of_singleton|by apply IH].
Qed.

Lemma dict2_inj (x y x' y' : value) :
  dict2 x y = dict2 x' y' → x = x' ∧ y = y'.
Proof.
  intros Heq. split.
  - apply (f_equal (λ p : gmap string value, p !! "damping")) in Heq.
    unfold dict2 in Heq. rewrite !lookup_insert_eq in Heq. congruence.
  - apply (f_equal (λ p : gmap string value, p !! "mindist")) in Heq.
    unfold dict2 in Heq.
    rewrite !lookup_insert_ne, !lookup_singleton_eq in Heq by done.
    congruence.
Qed.

Lemma parameter_sets_elem (dampings mindists : list value)
    (p : gmap string value) :
  p ∈ parameter_sets dampings mindists ↔
  ∃ x y, x ∈ dampings ∧ y ∈ mindists ∧ p = dict2 x y.
Proof.
  rewrite parameter_sets_nested, list_elem_of_bind. split.
  - intros (x & Hp & Hx). apply list_elem_of_bind in Hp as (y & Hp & Hy).
    apply list_elem_of_singleton in Hp. by exists x, y.
  - intros (x & y & Hx & Hy & ->). exists x. split; [|done].
    apply list_elem_of_bind. exists y.
    split; [by apply list_elem_of_singleton|done].
Qed.

(** X1. [itertools.product] is the Cartesian product: a tuple is produced
    exactly when it has one component per pool, each taken from its pool; so
    every tuple has as many components as there are pools, and no tuple is
    produced as soon as one pool is empty. *)
Theorem itertools_product_cartesian (A : Type) (pools : list (list A)) :
  (∀ t : list A,
      t ∈ itertools_product pools ↔ Forall2 (λ x pool, x ∈ pool) t pools) ∧
  (∀ t : list A, t ∈ itertools_product pools → length t = length pools) ∧
  ([] ∈ pools → itertools_product pools = []).
Proof.
  rewrite itertools_product_nested.
  split; [apply nested_loops_elem|]. split.
  - intros t Ht. apply nested_loops_elem in Ht. by eapply Forall2_length.
  - intros Hempty. apply elem_of_nil_inv. intros t Ht.
    apply nested_loops_elem in Ht.
    apply list_elem_of_lookup in Hempty as [i Hi].
    destruct (Forall2_lookup_r _ _ _ _ _ Ht Hi) as (x & _ & Hx).
    by apply elem_of_nil in Hx.
Qed.

Lemma itertools_product_cartesian_witness :
  itertools_product [[1; 2]; []; [3]] = [].
Proof.
  apply (proj2 (proj2 (itertools_product_cartesian nat [[1; 2]; []; [3]]))).
  apply list_elem_of_further, list_elem_of_here.
Defined.

(** X2. Cell 6 builds the full grid and nothing else: a dict is in
    [parameter_sets] exactly when it assigns a candidate damping to [damping]
    and a candidate mindist to [mindist]; in particular every Configuration has
    these two keys and no other. *)
Theorem parameter_sets_full_grid (dampings mindists : list value)
    (p : gmap string value) :
  (p ∈ parameter_sets dampings mindists ↔
   ∃ x y, x ∈ dampings ∧ y ∈ mindists ∧
          p = {[ "damping" := x; "mindist" := y ]}) ∧
  (p ∈ parameter_sets dampings mindists →
   dom p = {[ "damping"; "mindist" ]} ∧
   (∃ x, p !! "damping" = Some x ∧ x ∈ dampings) ∧
   (∃ y, p !! "mindist" = Some y ∧ y ∈ mindists)).
Proof.
  split; [apply parameter_sets_elem|].
  intros Hp. split.
  - pose proof (parameter_sets_dom dampings mindists) as Hdom.
    rewrite Forall_forall in Hdom. by apply Hdom.
  - apply parameter_sets_elem in Hp as (x & y & Hx & Hy & ->). split.
    + exists x. split; [apply lookup_insert_eq|done].
    + exists y. split; [|done]. unfold dict2.
      by rewrite lookup_insert_ne, lookup_singleton_eq.
Qed.

Lemma parameter_sets_full_grid_witness :
  dom (dict2 (flt 1 100) (flt 5000 1)) = {[ "damping"; "mindist" ]}.
Proof.
  apply (proj2 (parameter_sets_full_grid
                  [VNone; flt 1 100] [flt 5000 1; flt 50000 1]
                  (dict2 (flt 1 100) (flt 5000 1)))).
  apply (proj1 (parameter_sets_full_grid
                  [VNone; flt 1 100] [flt 5000 1; flt 50000 1]
                  (dict2 (flt 1 100) (flt 5000 1)))).
  exists (flt 1 100), (flt 5000 1).
  split; [apply list_elem_of_further, list_elem_of_here|].
  split; [apply list_elem_of_here|reflexivity].
Defined.

(** X3. Cell 6 enumerates no Configuration twice when no candidate value
    occurs twice in [dampings] nor in [mindists]. *)
Theorem parameter_sets_NoDup (dampings mindists : list value) :
  NoDup dampings → NoDup mindists →
  NoDup (parameter_sets dampings mindists).
Proof.
  intros Hd Hm. rewrite parameter_sets_nested.
  apply NoDup_bind; [| |done].
  - intros x1 x2 p _ _ Hp1 Hp2.
    apply list_elem_of_bind in Hp1 as (y1 & Hp1 & _).
    apply list_elem_of_bind in Hp2 as (y2 & Hp2 & _).
    apply list_elem_of_singleton in Hp1, Hp2. subst p.
    by apply dict2_inj in Hp2 as [? _].
  - intros x _. apply NoDup_bind; [| |done].
    + intros y1 y2 p _ _ Hp1 Hp2.
      apply list_elem_of_singleton in Hp1, Hp2. subst p.
      by apply dict2_inj in Hp2 as [_ ?].
    + intros y _. apply NoDup_singleton.
Qed.

Lemma parameter_sets_NoDup_witness :
  NoDup (parameter_sets [VNone; flt 1 100] [flt 5000 1; flt 50000 1]).
Proof.
  apply parameter_sets_NoDup.
  - apply NoDup_cons. split; [|apply NoDup_singleton].
    intros H. apply list_elem_of_singleton in H. discriminate H.
  - apply NoDup_cons. split; [|apply NoDup_singleton].
    intros H. apply list_elem_of_singleton in H. discriminate H.
Defined.

(** * Further properties of the selection *)

(** An index whose element is a maximum and strictly above everything before
    it is the one [np.argmax] returns. *)
Lemma np_argmax_first_max (a : list Q) (i : nat) (s : Q) :
  a !! i = Some s →
  (∀ j s', a !! j = Some s' → (s' <= s)%Q) →
  (∀ j s', j < i → a !! j = Some s' → (s' < s)%Q) →
  np_argmax a = inr i.
Proof.
  intros Hi Hmax Hfirst.
  destruct (np_argmax_spec a) as (best & sb & Hbest & Hsb & Hbmax & Hbfirst).
  { intros ->. done. }
  rewrite Hbest. f_equal.
  destruct (Nat.lt_trichotomy best i) as [Hlt|[Heq|Hgt]]; [|done|].
  - exfalso. apply (Qlt_irrefl s).
    eapply Qle_lt_trans; [by eapply (Hbmax i)|by eapply (Hfirst best)].
  - exfalso. apply (Qlt_irrefl sb).
    eapply Qle_lt_trans; [by eapply (Hmax best)|by eapply (Hbfirst i)].
Qed.

Lemma argmax_scan_fmap (f : Q → Q) (ip : list Q) (mp : Q) (max_ind i : nat) :
  (∀ x y, (f x <= f y)%Q ↔ (x <= y)%Q) →
  argmax_scan (f mp) max_ind i (f <$> ip) = argmax_scan mp max_ind i ip.
Proof.
  intros Hf. revert mp max_ind i.
  induction ip as [|x ip IH]; intros mp max_ind i; [done|].
  simpl. assert (Qle_bool (f x) (f mp) = Qle_bool x mp) as ->.
  { destruct (Qle_bool x mp) eqn:Hx.
    - apply Qle_bool_iff, (proj2 (Hf x mp)). by apply Qle_bool_iff.
    - destruct (Qle_bool (f x) (f mp)) eqn:Hfx; [|done].
      apply Qle_bool_iff in Hfx. apply (proj1 (Hf x mp)) in Hfx.
      apply Qle_bool_iff in Hfx. by rewrite Hfx in Hx. }
  destruct (Qle_bool x mp); apply IH.
Qed.

(** X4. [np.argmax] returns [i] exactly when [i] is the first index of the
    maximum: the element at [i] is not exceeded by any element and is strictly
    above every element before it. *)
Theorem np_argmax_iff (a : list Q) (i : nat) :
  np_argmax a = inr i ↔
  ∃ s, a !! i = Some s ∧
       (∀ j s', a !! j = Some s' → (s' <= s)%Q) ∧
       (∀ j s', j < i → a !! j = Some s' → (s' < s)%Q).
Proof.
  split.
  - intros Hi. destruct a as [|x a]; [done|].
    destruct (np_argmax_spec (x :: a)) as (best & s & Hbest & Hs); [done|].
    rewrite Hi in Hbest. injection Hbest as <-. by exists s.
  - intros (s & Hi & Hmax & Hfirst). by eapply np_argmax_first_max.
Qed.

Lemma np_argmax_iff_witness :
  ∃ s, [1#2; 7#10; 7#10] !! 1 = Some s ∧
       (∀ j s', [1#2; 7#10; 7#10] !! j = Some s' → (s' <= s)%Q) ∧
       (∀ j s', j < 1 → [1#2; 7#10; 7#10] !! j = Some s' → (s' < s)%Q).
Proof.
  apply (proj1 (np_argmax_iff [1#2; 7#10; 7#10] 1)). reflexivity.
Defined.

(** X5. Cell 10 fails in exactly two ways. On an empty [scores] list
    [np.argmax] raises [ValueError]. On a non-empty one the index found is an
    index of [scores], so [scores[best]] does not raise; [parameter_sets[best]]
    raises [IndexError] when [parameter_sets] has no such index, and otherwise
    a Result is returned. *)
Theorem select_failure_modes (pss : list (gmap string value)) (scs : list Q)
    (sd : Q) :
  (scs = [] →
   select pss scs sd =
     inl (Raise "ValueError" "attempt to get argmax of an empty sequence")) ∧
  (scs ≠ [] →
   ∃ best s, np_argmax scs = inr best ∧ scs !! best = Some s ∧
     ((length pss ≤ best)%nat →
      select pss scs sd = inl (Raise "IndexError" "list index out of range")) ∧
     (∀ p, pss !! best = Some p →
      select pss scs sd =
        inr {| best_score := s; score_default := sd; best_params := p |})).
Proof.
  split; [by intros ->|]. intros Hne.
  destruct (np_argmax_spec scs Hne) as (best & s & Hbest & Hs & _).
  exists best, s. split; [done|]. split; [done|].
  unfold select, py_index. rewrite Hbest. simpl. rewrite Hs. simpl. split.
  - intros Hlen. by rewrite (lookup_ge_None_2 pss best Hlen).
  - by intros p ->.
Qed.

Lemma select_failure_modes_witness :
  select [dict2 VNone (flt 5000 1)] [1#2; 7#10] (1#3) =
  inl (Raise "IndexError" "list index out of range").
Proof.
  destruct (proj2 (select_failure_modes
                     [dict2 VNone (flt 5000 1)] [1#2; 7#10] (1#3)))
    as (best & s & Hbest & _ & Hshort & _); [done|].
  apply Hshort. injection Hbest as <-. simpl. lia.
Defined.

(** X6. Extending the sweep does not change the Result unless a new score is
    strictly higher: if cell 10 returns a Result for the recorded scores, it
    returns the same Result after more Configurations are appended whose scores
    do not exceed the best score. *)
Theorem select_extend (pss pss' : list (gmap string value))
    (scs scs' : list Q) (sd : Q) (r : Result) :
  length pss = length scs →
  select pss scs sd = inr r →
  (∀ s', s' ∈ scs' → (s' <= best_score r)%Q) →
  select (pss ++ pss') (scs ++ scs') sd = inr r.
Proof.
  intros Hlen Hsel Hle.
  assert (scs ≠ []) as Hne by (by intros ->).
  destruct (select_spec pss scs sd Hne Hlen)
    as (best & p & s & Hbest & Hsel' & Hp & Hs & Hmax & Hfirst).
  rewrite Hsel in Hsel'. injection Hsel' as ->. simpl in Hle.
  assert (np_argmax (scs ++ scs') = inr best) as Hbest'.
  { apply (np_argmax_first_max _ _ s).
    - by apply lookup_app_l_Some.
    - intros j s' Hj. apply lookup_app_Some in Hj as [Hj|[_ Hj]].
      + by eapply Hmax.
      + apply Hle. by eapply list_elem_of_lookup_2.
    - intros j s' Hlt Hj. eapply Hfirst; [done|].
      rewrite lookup_app_l in Hj; [done|].
      apply lookup_lt_Some in Hs. lia. }
  unfold select, py_index. rewrite Hbest'. simpl.
  by rewrite (lookup_app_l_Some _ _ _ _ Hs), (lookup_app_l_Some _ _ _ _ Hp).
Qed.

Lemma select_extend_witness :
  select ([dict2 VNone (flt 5000 1); dict2 VNone (flt 50000 1)] ++
          [dict2 (flt 1 100) (flt 5000 1)])
         ([1#2; 7#10] ++ [7#10]) (1#3) =
  inr {| best_score := 7#10; score_default := 1#3;
         best_params := dict2 VNone (flt 50000 1) |}.
Proof.
  apply select_extend; [reflexivity|reflexivity|].
  intros s' Hs'. apply list_elem_of_singleton in Hs' as ->. apply Qle_refl.
Defined.

(** X7. The selection depends only on the order of the scores: applying to
    every score a function that preserves and reflects [<=] leaves the index
    found by [np.argmax], and so the selected Configuration, unchanged. *)
Theorem select_order_invariant (f : Q → Q)
    (pss : list (gmap string value)) (scs : list Q) (sd : Q) (r : Result) :
  (∀ x y, (f x <= f y)%Q ↔ (x <= y)%Q) →
  select pss scs sd = inr r →
  np_argmax (f <$> scs) = np_argmax scs ∧
  select pss (f <$> scs) sd =
    inr {| best_score := f (best_score r); score_default := sd;
           best_params := best_params r |}.
Proof.
  intros Hf Hsel.
  assert (np_argmax (f <$> scs) = np_argmax scs) as Harg.
  { destruct scs as [|x scs]; [done|]. simpl. f_equal.
    by apply argmax_scan_fmap. }
  split; [done|]. revert Hsel. unfold select, py_index. rewrite Harg.
  destruct (np_argmax scs) as [e|best]; simpl; [done|].
  rewrite list_lookup_fmap.
  destruct (scs !! best) as [s|]; simpl; [|done].
  destruct (pss !! best) as [p|]; simpl; [|done].
  by intros [= <-].
Qed.

Lemma select_order_invariant_witness :
  np_argmax (Qplus 1 <$> [1#2; 7#10; 7#10]) = np_argmax [1#2; 7#10; 7#10].
Proof.
  apply (select_order_invariant (Qplus 1)
           [dict2 VNone (flt 5000 1); dict2 VNone (flt 50000 1);
            dict2 (flt 1 100) (flt 5000 1)]
           [1#2; 7#10; 7#10] (1#3)
           {| best_score := 7#10; score_default := 1#3;
              best_params := dict2 VNone (flt 50000 1) |}).
  - intros x y. apply Qplus_le_r.
  - reflexivity.
Defined.

(** * Further properties of the scoring loop *)

Lemma all_scored_forall (defaults : gmap string value) (cv : Spline → exn + Q)
    (ps : list (gmap string value)) :
  all_scored defaults cv ps = true ↔
  ∀ p, p ∈ ps → ∃ s, cv (set_params (new_Spline defaults) p) = inr s.
Proof.
  unfold all_scored. induction ps as [|p ps IH]; simpl.
  - split; [|done]. intros _ p Hp. by apply elem_of_nil in Hp.
  - rewrite andb_true_iff, IH. split.
    + intros [Hp Hps] q Hq. apply elem_of_cons in Hq as [->|Hq]; [|by apply Hps].
      destruct (cv (set_params (new_Spline defaults) p)) as [e|s]; [done|].
      by exists s.
    + intros Hall. split.
      * destruct (Hall p) as [s ->]; [apply list_elem_of_here|done].
      * intros q Hq. apply Hall. by apply list_elem_of_further.
Qed.

(** The models scored in a run are the baseline model and then the shared
    model configured with the first [n] Configurations, for some [n]; at most
    [n] scores are recorded. *)
Lemma run_shape (defaults : gmap string value) (cv : Spline → exn + Q)
    (dampings mindists : list value) :
  ∃ n,
    (n ≤ length (parameter_sets dampings mindists))%nat ∧
    out_calls (run defaults cv dampings mindists) =
      new_Spline defaults ::
      (set_params (new_Spline defaults) <$>
         take n (parameter_sets dampings mindists)) ∧
    (length (out_scores (run defaults cv dampings mindists)) ≤ n)%nat.
Proof.
  destruct (cv (new_Spline defaults)) as [e|sd] eqn:Hsd.
  { rewrite (run_baseline_raises _ _ _ _ e) by done. exists 0. simpl.
    split; [lia|]. split; [done|lia]. }
  destruct (scoring_cases defaults cv (parameter_sets dampings mindists))
    as [[ss Hss]|(pre & p & post & ss & e & Hps & Hss & He)].
  - rewrite (run_completes _ _ _ _ sd ss) by done. simpl.
    exists (length (parameter_sets dampings mindists)).
    rewrite firstn_all. split; [lia|]. split; [done|].
    apply Forall2_length in Hss. lia.
  - rewrite (run_aborts _ _ _ _ sd pre post p ss e) by done. simpl.
    exists (S (length pre)). rewrite Hps.
    rewrite (take_S_r _ _ p) by apply list_lookup_middle, eq_refl.
    rewrite take_app_length. split; [rewrite length_app; simpl; lia|].
    split; [done|]. apply Forall2_length in Hss. lia.
Qed.

Lemma run_result_spec (defaults : gmap string value) (cv : Spline → exn + Q)
    (dampings mindists : list value) (sd : Q) :
  cv (new_Spline defaults) = inr sd →
  dampings ≠ [] → mindists ≠ [] →
  all_scored defaults cv (parameter_sets dampings mindists) = true →
  ∃ r : Result,
    out_result (run defaults cv dampings mindists) = inr r ∧
    score_default r = sd ∧
    best_params r ∈ parameter_sets dampings mindists ∧
    cv (set_params (new_Spline defaults) (best_params r)) = inr (best_score r) ∧
    (∀ p s, p ∈ parameter_sets dampings mindists →
            cv (set_params (new_Spline defaults) p) = inr s →
            (s <= best_score r)%Q).
Proof.
  intros Hsd Hd Hm Hall.
  destruct (all_scored_Forall2 _ _ _ Hall) as [ss Hss].
  pose proof (parameter_sets_nonempty _ _ Hd Hm) as Hne.
  pose proof (Forall2_length _ _ _ Hss) as Hlen.
  destruct (select_spec (parameter_sets dampings mindists) ss sd)
    as (best & p & s & _ & Hsel & Hp & Hs & Hmax & _); [|done|].
  { intros ->. by destruct (parameter_sets dampings mindists). }
  rewrite (run_completes _ _ _ _ sd ss) by done. cbn [out_result].
  eexists. split; [exact Hsel|]. simpl. split; [done|].
  split; [by eapply list_elem_of_lookup_2|].
  split; [by eapply (Forall2_lookup_lr _ _ _ best) in Hss|].
  intros p' s' Hp' Hs'. apply list_elem_of_lookup in Hp' as [j Hj].
  destruct (Forall2_lookup_l _ _ _ j p' Hss Hj) as (s'' & Hj' & Hs'').
  rewrite Hs' in Hs''. injection Hs'' as <-. by eapply Hmax.
Qed.

(** X8. Mutating the one shared model is as good as configuring a fresh model
    for every Configuration when all Configurations assign the same parameters
    of the model, as those of cell 6 do: the loop then scores the same models and
    records the same scores. It is not so in general: after [{damping: 0.01}]
    the Configuration [{mindist: 50000}] is scored with damping 0.01 still set
    on the shared model. *)
Theorem shared_model_no_leak :
  (∀ (defaults : gmap string value) (cv : Spline → exn + Q) (D : gset string)
     (ps : list (gmap string value)) (st : loop_state),
      spline st = new_Spline defaults →
      D ⊆ dom defaults →
      Forall (λ p : gmap string value, dom p = D) ps →
      sweep cv ps st = sweep_fresh defaults cv ps st) ∧
  (∀ (defaults : gmap string value) (cv : Spline → exn + Q)
     (dampings mindists : list value) (st : loop_state),
      spline st = new_Spline defaults →
      sweep cv (parameter_sets dampings mindists) st =
      sweep_fresh defaults cv (parameter_sets dampings mindists) st) ∧
  (let ps : list (gmap string value) :=
     [{[ "damping" := flt 1 100 ]}; {[ "mindist" := flt 50000 1 ]}] in
   let st := {| spline := new_Spline stub_defaults; scores := [];
                calls := [] |} in
   scores (sweep stub_score ps st).2 = [84#100; 85#100] ∧
   scores (sweep_fresh stub_defaults stub_score ps st).2 = [84#100; 84#100]).
Proof.
  assert (∀ (defaults : gmap string value) (cv : Spline → exn + Q)
            (D : gset string) (ps : list (gmap string value))
            (st : loop_state),
             spline st = new_Spline defaults →
             Forall (λ p : gmap string value, dom p = D) ps →
             sweep cv ps st = sweep_fresh defaults cv ps st) as Huniform.
  { intros defaults cv D ps st Hst Hps.
    apply (sweep_shared_fresh defaults cv D ps st ∅); [|by rewrite set_params_empty|done].
    rewrite dom_empty_L. set_solver. }
  split; [by intros defaults cv D ps st Hst _; apply Huniform|].
  split; [|by split].
  intros defaults cv dampings mindists st Hst.
  apply (Huniform _ _ {[ "damping"; "mindist" ]}); [done|].
  apply parameter_sets_dom.
Qed.

Lemma shared_model_no_leak_witness :
  sweep stub_score (parameter_sets [VNone; flt 1 100] [flt 5000 1])
    {| spline := new_Spline stub_defaults; scores := []; calls := [] |} =
  sweep_fresh stub_defaults stub_score
    (parameter_sets [VNone; flt 1 100] [flt 5000 1])
    {| spline := new_Spline stub_defaults; scores := []; calls := [] |}.
Proof.
  apply (proj1 (proj2 shared_model_no_leak)). reflexivity.
Defined.

(** X9. The loop changes nothing but [damping] and [mindist]: every model
    handed to the scoring function during a run has, for every other attribute,
    the value of a freshly constructed model. *)
Theorem scored_models_frame
    (defaults : gmap string value) (cv : Spline → exn + Q)
    (dampings mindists : list value) (s : Spline) (k : string) :
  s ∈ out_calls (run defaults cv dampings mindists) →
  k ≠ "damping" → k ≠ "mindist" →
  attrs s !! k = defaults !! k.
Proof.
  intros Hs Hk1 Hk2.
  destruct (run_shape defaults cv dampings mindists) as (n & _ & Hcalls & _).
  rewrite Hcalls in Hs. apply elem_of_cons in Hs as [->|Hs]; [done|].
  apply list_elem_of_fmap in Hs as (p & -> & Hp).
  assert (p ∈ parameter_sets dampings mindists) as Hp'.
  { apply list_elem_of_lookup in Hp as [i Hi].
    apply lookup_take_Some in Hi as [Hi _]. by eapply list_elem_of_lookup_2. }
  pose proof (parameter_sets_dom dampings mindists) as Hdom.
  rewrite Forall_forall in Hdom. specialize (Hdom p Hp').
  simpl. apply lookup_union_r, not_elem_of_dom. rewrite Hdom.
  rewrite elem_of_union, !elem_of_singleton. by intros [?|?].
Qed.

Lemma scored_models_frame_witness :
  attrs (set_params (new_Spline {[ "damping" := VNone; "engine" := flt 7 1 ]})
           (dict2 (flt 1 100) (flt 5000 1))) !! "engine" =
  ({[ "damping" := VNone; "engine" := flt 7 1 ]} : gmap string value)
    !! "engine".
Proof.
  apply (scored_models_frame {[ "damping" := VNone; "engine" := flt 7 1 ]}
           (λ _, inr (1#2)) [flt 1 100] [flt 5000 1]).
  - apply list_elem_of_further, list_elem_of_here.
  - done.
  - done.
Defined.

Lemma set_params_defaults (defaults : gmap string value) (x y : value) :
  defaults !! "damping" = Some x → defaults !! "mindist" = Some y →
  set_params (new_Spline defaults) (dict2 x y) = new_Spline defaults.
Proof.
  intros Hx Hy. unfold set_params, new_Spline. simpl. f_equal.
  apply map_subseteq_union, map_subseteq_spec. intros k v Hk.
  unfold dict2 in Hk. apply lookup_insert_Some in Hk as [[<- <-]|[_ Hk]]; [done|].
  by apply lookup_singleton_Some in Hk as [<- <-].
Qed.

(** X10. When the grid contains the default values of both parameters, tuning
    cannot do worse than the defaults: the best score of the Result is at least
    the baseline score. *)
Theorem tuned_at_least_baseline
    (defaults : gmap string value) (cv : Spline → exn + Q)
    (dampings mindists : list value) (sd : Q) (x y : value) :
  cv (new_Spline defaults) = inr sd →
  all_scored defaults cv (parameter_sets dampings mindists) = true →
  x ∈ dampings → y ∈ mindists →
  defaults !! "damping" = Some x → defaults !! "mindist" = Some y →
  ∃ r : Result,
    out_result (run defaults cv dampings mindists) = inr r ∧
    (score_default r <= best_score r)%Q.
Proof.
  intros Hsd Hall Hx Hy Hdx Hdy.
  destruct (run_result_spec defaults cv dampings mindists sd)
    as (r & Hr & Hbase & _ & _ & Hmax); [done| | |done|].
  { intros ->. by apply elem_of_nil in Hx. }
  { intros ->. by apply elem_of_nil in Hy. }
  exists r. split; [done|]. rewrite Hbase.
  apply (Hmax (dict2 x y)).
  - apply parameter_sets_elem. by exists x, y.
  - by rewrite set_params_defaults.
Qed.

Lemma tuned_at_least_baseline_witness :
  ∃ r : Result,
    out_result (run stub_defaults stub_score
                  [VNone; flt 1 100] [flt 1 100000; flt 50000 1]) = inr r ∧
    (score_default r <= best_score r)%Q.
Proof.
  apply (tuned_at_least_baseline stub_defaults stub_score
           [VNone; flt 1 100] [flt 1 100000; flt 50000 1] ((-3)#1)
           VNone (flt 1 100000)).
  - reflexivity.
  - reflexivity.
  - apply list_elem_of_here.
  - apply list_elem_of_here.
  - reflexivity.
  - reflexivity.
Defined.

(** X11. The best score depends on which candidate values are tried, not on
    their order or on repetitions: two runs whose lists of dampings have the
    same elements, and likewise their lists of mindists, return Results with
    equal best scores and the same baseline. *)
Theorem best_score_order_independent
    (defaults : gmap string value) (cv : Spline → exn + Q)
    (dampings mindists dampings' mindists' : list value) (sd : Q) :
  (∀ x, x ∈ dampings ↔ x ∈ dampings') →
  (∀ y, y ∈ mindists ↔ y ∈ mindists') →
  cv (new_Spline defaults) = inr sd →
  dampings ≠ [] → mindists ≠ [] →
  all_scored defaults cv (parameter_sets dampings mindists) = true →
  ∃ r r' : Result,
    out_result (run defaults cv dampings mindists) = inr r ∧
    out_result (run defaults cv dampings' mindists') = inr r' ∧
    (best_score r == best_score r')%Q ∧
    score_default r = score_default r'.
Proof.
  intros Hd Hm Hsd Hdne Hmne Hall.
  assert (∀ p, p ∈ parameter_sets dampings mindists ↔
               p ∈ parameter_sets dampings' mindists') as Hps.
  { intros p. rewrite !parameter_sets_elem. split.
    - intros (x & y & Hx & Hy & ->). exists x, y.
      split; [by apply Hd|]. split; [by apply Hm|done].
    - intros (x & y & Hx & Hy & ->). exists x, y.
      split; [by apply Hd|]. split; [by apply Hm|done]. }
  assert (all_scored defaults cv (parameter_sets dampings' mindists') = true)
    as Hall'.
  { apply all_scored_forall. intros p Hp.
    apply (proj1 (all_scored_forall _ _ _) Hall), Hps, Hp. }
  destruct (run_result_spec defaults cv dampings mindists sd)
    as (r & Hr & Hbase & Hin & Hbest & Hmax); [done..|].
  destruct (run_result_spec defaults cv dampings' mindists' sd)
    as (r' & Hr' & Hbase' & Hin' & Hbest' & Hmax'); [done| | |done|].
  { destruct dampings as [|x ?]; [done|]. intros Heq.
    assert (x ∈ dampings') as Hx by apply Hd, list_elem_of_here.
    rewrite Heq in Hx. by apply elem_of_nil in Hx. }
  { destruct mindists as [|y ?]; [done|]. intros Heq.
    assert (y ∈ mindists') as Hy by apply Hm, list_elem_of_here.
    rewrite Heq in Hy. by apply elem_of_nil in Hy. }
  exists r, r'. split; [done|]. split; [done|].
  split; [|congruence]. apply Qle_antisym.
  - apply (Hmax' (best_params r)); [by apply Hps|done].
  - apply (Hmax (best_params r')); [by apply Hps|done].
Qed.

Lemma best_score_order_independent_witness :
  ∃ r r' : Result,
    out_result (run stub_defaults stub_score
                  [VNone; flt 1 100] [flt 5000 1; flt 50000 1]) = inr r ∧
    out_result (run stub_defaults stub_score
                  [flt 1 100; VNone; flt 1 100] [flt 50000 1; flt 5000 1])
      = inr r' ∧
    (best_score r == best_score r')%Q ∧
    score_default r = score_default r'.
Proof.
  apply (best_score_order_independent stub_defaults stub_score
           [VNone; flt 1 100] [flt 5000 1; flt 50000 1]
           [flt 1 100; VNone; flt 1 100] [flt 50000 1; flt 5000 1] ((-3)#1)).
  - intros x. rewrite !elem_of_cons, !elem_of_nil. tauto.
  - intros y. rewrite !elem_of_cons, !elem_of_nil. tauto.
  - reflexivity.
  - done.
  - done.
  - reflexivity.
Defined.

(** X12. A run calls the scoring function at least once (the baseline) and at
    most once more per Configuration, and every recorded score comes from a
    call of its own after the baseline's; when the baseline and every
    Configuration are scored, the number of calls is exactly
    [1 + len(dampings) * len(mindists)]. *)
Theorem scoring_calls_bound
    (defaults : gmap string value) (cv : Spline → exn + Q)
    (dampings mindists : list value) :
  let o := run defaults cv dampings mindists in
  (1 ≤ length (out_calls o))%nat ∧
  (length (out_calls o) ≤ 1 + length dampings * length mindists)%nat ∧
  length (out_scores o) < length (out_calls o) ∧
  (∀ sd, cv (new_Spline defaults) = inr sd →
     all_scored defaults cv (parameter_sets dampings mindists) = true →
     length (out_calls o) = 1 + length dampings * length mindists).
Proof.
  simpl.
  destruct (run_shape defaults cv dampings mindists) as (n & Hn & Hcalls & Hsc).
  rewrite Hcalls. simpl. rewrite length_fmap, length_take.
  rewrite length_parameter_sets in *.
  split; [lia|]. split; [lia|]. split; [lia|].
  intros sd Hsd Hall. destruct (all_scored_Forall2 _ _ _ Hall) as [ss Hss].
  rewrite (run_completes _ _ _ _ sd ss) in Hcalls by done.
  simpl in Hcalls. apply (f_equal length) in Hcalls. simpl in Hcalls.
  rewrite !length_fmap, length_take, length_parameter_sets in Hcalls. lia.
Qed.

Lemma scoring_calls_bound_witness :
  length (out_calls (run stub_defaults stub_score
                       [VNone; flt 1 100] [flt 5000 1; flt 50000 1])) = 5.
Proof.
  apply (scoring_calls_bound stub_defaults stub_score
           [VNone; flt 1 100] [flt 5000 1; flt 50000 1]) with (sd := (-3)#1);
    reflexivity.
Defined.

(** X13. The loop over a concatenated list is the loop over the first part
    followed, unless that raised, by the loop over the second part from the
    state reached: the shared model, the scores and the calls carry over. *)
Theorem sweep_app (cv : Spline → exn + Q)
    (ps1 ps2 : list (gmap string value)) (st : loop_state) :
  sweep cv (ps1 ++ ps2) st =
  match sweep cv ps1 st with
  | (None, st') => sweep cv ps2 st'
  | (Some e, st') => (Some e, st')
  end.
Proof.
  revert st. induction ps1 as [|p ps1 IH]; intros st; [done|].
  simpl. destruct (cv (set_params (spline st) p)) as [e|s]; [done|].
  apply IH.
Qed.

Lemma sweep_completed_spline (cv : Spline → exn + Q)
    (ps : list (gmap string value)) (st st' : loop_state) :
  sweep cv ps st = (None, st') → spline st' = foldl set_params (spline st) ps.
Proof.
  revert st. induction ps as [|p ps IH]; intros st Hsw; simpl in *.
  - by injection Hsw as <-.
  - destruct (cv (set_params (spline st) p)) as [e|s]; [done|].
    by apply IH in Hsw.
Qed.

Lemma foldl_set_params_unset (ps : list (gmap string value)) (s : Spline)
    (k : string) :
  (∀ p, p ∈ ps → p !! k = None) →
  attrs (foldl set_params s ps) !! k = attrs s !! k.
Proof.
  revert s. induction ps as [|p ps IH]; intros s Hps; [done|].
  simpl. rewrite IH by (intros q Hq; by apply Hps, list_elem_of_further).
  simpl. apply lookup_union_r, Hps, list_elem_of_here.
Qed.

(** X14. On the shared model the last writer wins: after a completed loop over
    any list of Configurations that name parameters of the model, an attribute named by none of them has the
    value it had before the loop, and an attribute named by some of them has
    the value given by the last Configuration that names it. *)
Theorem sweep_last_writer_wins (cv : Spline → exn + Q)
    (ps : list (gmap string value)) (st st' : loop_state) (k : string) :
  Forall (λ p : gmap string value, dom p ⊆ dom (attrs (spline st))) ps →
  sweep cv ps st = (None, st') →
  ((∀ p, p ∈ ps → p !! k = None) →
   attrs (spline st') !! k = attrs (spline st) !! k) ∧
  (∀ pre p post v,
     ps = pre ++ p :: post → p !! k = Some v →
     (∀ q, q ∈ post → q !! k = None) →
     attrs (spline st') !! k = Some v).
Proof.
  intros _ Hsw. apply sweep_completed_spline in Hsw. rewrite Hsw. split.
  - apply foldl_set_params_unset.
  - intros pre p post v -> Hp Hpost.
    rewrite foldl_app. simpl. rewrite foldl_set_params_unset by done.
    simpl. by apply lookup_union_Some_l.
Qed.

Lemma sweep_last_writer_wins_witness :
  attrs (spline (sweep stub_score
                   [{[ "damping" := flt 1 100 ]}; {[ "mindist" := flt 50000 1 ]}]
                   {| spline := new_Spline stub_defaults; scores := [];
                      calls := [] |}).2) !! "damping" = Some (flt 1 100).
Proof.
  eapply (proj2 (sweep_last_writer_wins stub_score
                   [{[ "damping" := flt 1 100 ]};
                    {[ "mindist" := flt 50000 1 ]}]
                   {| spline := new_Spline stub_defaults; scores := [];
                      calls := [] |}
                   _ "damping" _ _)
            [] {[ "damping" := flt 1 100 ]} [{[ "mindist" := flt 50000 1 ]}]).
  - reflexivity.
  - reflexivity.
  - intros q Hq. apply list_elem_of_singleton in Hq as ->. reflexivity.
  Unshelve.
  + apply Forall_forall. intros q Hq. simpl.
    assert (dom stub_defaults = {[ "damping"; "mindist" ]}) as ->.
    { unfold stub_defaults. by rewrite dom_insert_L, dom_singleton_L. }
    apply elem_of_cons in Hq as [->|Hq].
    * rewrite dom_singleton_L. apply union_subseteq_l.
    * apply list_elem_of_singleton in Hq as ->.
      rewrite dom_singleton_L. apply union_subseteq_r.
  + reflexivity.
Defined.

(** X15. When [dampings] or [mindists] is empty, cell 6 builds no
    Configuration and the loop makes no scoring call: the only model scored is
    the baseline's. If the baseline is scored, the run ends in the
    [ValueError] that [np.argmax] raises on the empty score list and prints no
    Result; if the baseline scoring raises, that exception ends the run. *)
Theorem empty_candidates_fail_at_selection
    (defaults : gmap string value) (cv : Spline → exn + Q)
    (dampings mindists : list value) :
  dampings = [] ∨ mindists = [] →
  parameter_sets dampings mindists = [] ∧
  out_calls (run defaults cv dampings mindists) = [new_Spline defaults] ∧
  out_scores (run defaults cv dampings mindists) = [] ∧
  (∀ sd, cv (new_Spline defaults) = inr sd →
     out_result (run defaults cv dampings mindists) =
       inl (Raise "ValueError" "attempt to get argmax of an empty sequence")) ∧
  (∀ e, cv (new_Spline defaults) = inl e →
     out_result (run defaults cv dampings mindists) = inl e).
Proof.
  intros Hempty.
  assert (parameter_sets dampings mindists = []) as Hps.
  { apply length_zero_iff_nil. rewrite length_parameter_sets.
    destruct Hempty as [-> | ->]; simpl; lia. }
  split; [done|]. unfold run, run_with. rewrite Hps.
  destruct (cv (new_Spline defaults)) as [e|sd]; simpl.
  - repeat split; [done|]. by intros e' [= ->].
  - repeat split; done.
Qed.

Lemma empty_candidates_fail_at_selection_witness :
  out_result (run stub_defaults stub_score [] [flt 5000 1]) =
  inl (Raise "ValueError" "attempt to get argmax of an empty sequence").
Proof.
  apply (proj1 (proj2 (proj2 (proj2
           (empty_candidates_fail_at_selection stub_defaults stub_score
              [] [flt 5000 1] (or_introl eq_refl)))))
           ((-3)#1)).
  reflexivity.
Defined.
